(** * Wallet risk scorer

    A shallow embedding of [risk_analyzer.py]: the Compound V2 cToken registry,
    the Etherscan event fetcher, the per-wallet feature extraction and the
    batch-relative min-max scoring, together with the properties the
    specification states about them.

    Conventions of the embedding.
    - A [pandas.DataFrame] is the list of its rows; [pd.DataFrame()] is [[]]
      and [df.empty] is the test for the empty list.
    - Numbers that Python holds as [float] are exact rationals ([Q]); decimal
      literals denote themselves ([0.4] is 2/5).  Rounding to binary64,
      overflow and the values [inf] and [nan] are not part of this model; the
      module [Binary64] evaluates the health factor proxy, the scaler and
      the weighted sum on binary64 floats, where rounding changes a stated
      property.
    - Printing and HTTP requests are recorded in a trace carried by the
      [Run] monad, which also carries a raised exception.
    - The wallet list is read from what [pd.read_csv] yields, a frame or
      [FileNotFoundError]; a file the reader cannot parse is outside the
      model.  The clock read by [datetime.now()] is the parameter [now], in
      seconds. *)

From Stdlib Require Import ZArith QArith Qround Qminmax Lqa String Ascii List Lia.
From Stdlib Require Import Floats.PrimFloat Floats.SpecFloat Floats.FloatOps.
From stdpp Require Import gmap strings.

Set Warnings "-inexact-float".

Open Scope Z_scope.

(** ** Strings *)

(** [str.lower()] on ASCII text (addresses are hexadecimal ASCII strings):
    the letters [A]..[Z] are mapped to [a]..[z], every other character is
    kept. *)
Definition lower_ascii (c : ascii) : ascii :=
  let n := N_of_ascii c in
  if ((65 <=? n) && (n <=? 90))%N then ascii_of_N (n + 32) else c.

Fixpoint lower (s : string) : string :=
  match s with
  | EmptyString => EmptyString
  | String c r => String (lower_ascii c) (lower r)
  end.

(** [int(s)] on a string: an optional sign followed by one or more ASCII
    decimal digits, the form in which the ledger API renders integers.
    [None] stands for the [ValueError] Python raises.  Python also accepts
    blanks around the numeral, underscores between its digits and decimal
    digits outside ASCII: on such strings this function is [None] where
    [int] returns, so the properties below speak of ledger numerals, on
    which both return, and of strings that hold a letter, on which both
    fail. *)
Definition digit_of (c : ascii) : option Z :=
  let n := Z.of_N (N_of_ascii c) in
  if (48 <=? n) && (n <=? 57) then Some (n - 48) else None.

Fixpoint digits_value (acc : Z) (s : string) : option Z :=
  match s with
  | EmptyString => Some acc
  | String c r =>
      match digit_of c with
      | Some d => digits_value (10 * acc + d) r
      | None => None
      end
  end.

Definition unsigned_int (s : string) : option Z :=
  match s with
  | EmptyString => None
  | _ => digits_value 0 s
  end.

Definition py_int (s : string) : option Z :=
  match s with
  | String "-"%char r => Z.opp <$> unsigned_int r
  | String "+"%char r => unsigned_int r
  | _ => unsigned_int s
  end.

(** ** Asset registry *)

Record Asset := {
  symbol : string;
  underlying_decimals : Z;
  price_usd : Q;
}.

Definition get_compound_v2_ctokens : gmap string Asset :=
  <["0x4ddc2d193948926d02f9b1fe9e1daa0718270ed5" :=
      {| symbol := "cETH"; underlying_decimals := 18; price_usd := 3500 |}]>
  (<["0x39aa39c021dfbae8fac545936693ac917d5e7563" :=
      {| symbol := "cUSDC"; underlying_decimals := 6; price_usd := 1.0 |}]>
  (<["0x5d3a536e4d6dbd6114cc1ead35777bab948e3643" :=
      {| symbol := "cDAI"; underlying_decimals := 18; price_usd := 1.0 |}]>
  (<["0xf650c3d88d12db855b8bf7d11be6c55a4e07dcc9" :=
      {| symbol := "cUSDT"; underlying_decimals := 6; price_usd := 1.0 |}]>
  (<["0xc11b1268c1a384e55c48c2391d8d480264a3a7f4" :=
      {| symbol := "cWBTC"; underlying_decimals := 8; price_usd := 65000 |}]>
  (<["0x6c8c6b02e7b2be14d4fa6022dfd6d75921d90e4e" :=
      {| symbol := "cBAT"; underlying_decimals := 18; price_usd := 0.25 |}]>
  ∅))))).

(** ** Ledger records, events and effects *)

(** The fields of a token-transfer record that the fetcher reads. *)
Record RawTx := {
  tx_contractAddress : string;
  tx_to : string;
  tx_value : string;
  tx_timeStamp : string;
}.

(** What [requests.get], [raise_for_status] and [response.json()] yield
    together: a [RequestException] (transport error, HTTP error status or
    undecodable body) or the decoded body with its [status] and [result]. *)
Inductive Response :=
| RequestException (reason : string)
| JsonBody (status : string) (result : list RawTx).

(** The remote API: the response to a [tokentx] query for an address made
    with an API key. *)
Definition Ledger := string -> string -> Response.

Inductive EventType := Mint | Redeem.

#[global] Instance EventType_eq_dec : EqDecision EventType.
Proof. solve_decision. Defined.

(** A row of the transactions frame; [timestamp] is the naive datetime of
    [datetime.fromtimestamp], counted in seconds. *)
Record Event := {
  timestamp : Z;
  event_type : EventType;
  asset_symbol : string;
  value_usd : Q;
}.

Inductive exn := ValueError | KeyError.

Inductive message :=
| MsgFetching (wallet : string)
| MsgRequestFailed (wallet reason : string)
| MsgProcessed (count : nat) (wallet : string)
| MsgNoRelevant (wallet : string)
| MsgApiKeyNotFound.

Inductive effect :=
| Print (m : message)
| HttpGet (address apikey : string).

(** A computation that prints, queries the ledger and may raise: the trace
    of its effects in program order and its outcome. *)
Definition Run (A : Type) : Type := list effect * (exn + A).

#[global] Instance Run_ret : MRet Run := fun A a => ([], inr a).

#[global] Instance Run_bind : MBind Run := fun A B k m =>
  match m with
  | (t, inl e) => (t, inl e)
  | (t, inr a) => let '(t', r) := k a in (t ++ t', r)
  end.

Definition print (m : message) : Run unit := ([Print m], inr tt).

Definition raise {A} (e : exn) : Run A := ([], inl e).

Definition trace {A} (r : Run A) : list effect := fst r.

Definition outcome {A} (r : Run A) : exn + A := snd r.

(** [requests.get(API_URL, params)] followed by the status check and the
    decoding of the body. *)
Definition http_get (remote : Ledger) (address apikey : string) : Run Response :=
  ([HttpGet address apikey], inr (remote address apikey)).

(** ** Event fetcher *)

Definition ctoken_addresses (ctoken_map : gmap string Asset) : list string :=
  (map_to_list ctoken_map).*1.

(** The body of the loop over [data['result']], for one record: [None] when
    the record is skipped, otherwise the row appended or the exception
    raised.  The timestamp is kept in seconds.  An amount or a timestamp
    too large for a float or a datetime is outside the model: the
    exceptions of the division and of [datetime.fromtimestamp] are not
    represented. *)
Definition transaction_of (wallet_address : string) (tx : RawTx)
  : option (exn + Event) :=
  let ctoken_map := get_compound_v2_ctokens in
  let contract_address := lower (tx_contractAddress tx) in
  if bool_decide (contract_address ∈ ctoken_addresses ctoken_map) then
    Some
      match ctoken_map !! contract_address with
      | None => inl KeyError
      | Some token_info =>
          match py_int (tx_value tx) with
          | None => inl ValueError
          | Some value_raw =>
              let value_adjusted :=
                (inject_Z value_raw / inject_Z (10 ^ underlying_decimals token_info))%Q in
              let event_type :=
                if bool_decide (lower (tx_to tx) = lower wallet_address)
                then Mint else Redeem in
              match py_int (tx_timeStamp tx) with
              | None => inl ValueError
              | Some seconds =>
                  inr {| timestamp := seconds;
                         event_type := event_type;
                         asset_symbol := symbol token_info;
                         value_usd := (value_adjusted * price_usd token_info)%Q |}
              end
          end
      end
  else None.

Fixpoint collect_transactions (wallet_address : string) (result : list RawTx)
  : exn + list Event :=
  match result with
  | [] => inr []
  | tx :: rest =>
      match transaction_of wallet_address tx with
      | None => collect_transactions wallet_address rest
      | Some (inl e) => inl e
      | Some (inr row) =>
          match collect_transactions wallet_address rest with
          | inl e => inl e
          | inr rows => inr (row :: rows)
          end
      end
  end.

Definition fetch_real_transactions (remote : Ledger)
    (wallet_address api_key : string) : Run (list Event) :=
  _ ← print (MsgFetching wallet_address);
  response ← http_get remote wallet_address api_key;
  match response with
  | RequestException reason =>
      _ ← print (MsgRequestFailed wallet_address reason);
      mret []
  | JsonBody status result =>
      if bool_decide (status ≠ "1") then mret []
      else
        match collect_transactions wallet_address result with
        | inl e => raise e
        | inr [] => mret []
        | inr transactions => mret transactions
        end
  end.

Definition fetch_wallet_data_wrapper (remote : Ledger) (args : string * string)
  : Run (string * list Event) :=
  let '(address, api_key) := args in
  transactions_df ← fetch_real_transactions remote address api_key;
  mret (address, transactions_df).

(** ** Feature extractor *)

Record Features := {
  liquidation_count : Z;
  total_supplied_usd : Q;
  total_borrowed_usd : Q;
  total_liquidated_usd : Z;
  distinct_assets_borrowed : Z;
  wallet_age_days : Z;
}.

(** [Series.sum()] and [Series.min()].  The sum is exact: the order of the
    additions, on which a binary64 total depends, plays no part in it. *)
Definition series_sum (values : list Q) : Q := foldr Qplus 0%Q values.

Definition series_min (first : Z) (others : list Z) : Z := foldr Z.min first others.

Definition is_mint (e : Event) : bool := bool_decide (event_type e = Mint).

(** [(datetime.now() - earliest).days]: whole days, rounded down. *)
Definition days_between (now earliest : Z) : Z := (now - earliest) `div` 86400.

Definition calculate_features (now : Z) (df : list Event) : Features :=
  match df with
  | [] =>
      {| liquidation_count := 0; total_supplied_usd := 0; total_borrowed_usd := 0;
         total_liquidated_usd := 0; distinct_assets_borrowed := 0;
         wallet_age_days := 0 |}
  | first :: others =>
      let total_supplied_usd := series_sum (value_usd <$> filter is_mint df) in
      let total_borrowed_usd := (total_supplied_usd * 0.4)%Q in
      let wallet_age_days :=
        days_between now (series_min (timestamp first) (timestamp <$> others)) in
      {| liquidation_count := 0;
         total_supplied_usd := total_supplied_usd;
         total_borrowed_usd := total_borrowed_usd;
         total_liquidated_usd := 0;
         distinct_assets_borrowed :=
           Z.of_nat (length (remove_dups (asset_symbol <$> df)));
         wallet_age_days := wallet_age_days |}
  end.

(** A row of [features_df]: the features with the [wallet_id] key added. *)
Record FeatureRow := {
  wallet_id : string;
  features : Features;
}.

(** ** Scorer *)

(** [sklearn.preprocessing.MinMaxScaler] with its default feature range
    [(0, 1)], on one column: fitting computes [scale_] and [min_] from the
    minimum and maximum of the column, a range below ten machine epsilons
    counting as 1, and the transformation is [X * scale_ + min_]. The
    numbers are exact rationals here; the same steps on binary64 floats
    are in [Binary64] below. *)
Module MinMaxScaler.

Definition data_min (X : list Q) : Q :=
  match X with
  | [] => 0%Q
  | x :: rest => foldr Qmin x rest
  end.

Definition data_max (X : list Q) : Q :=
  match X with
  | [] => 0%Q
  | x :: rest => foldr Qmax x rest
  end.

Definition data_range (X : list Q) : Q := (data_max X - data_min X)%Q.

(** [np.finfo(np.float64).eps], the machine epsilon 2{^-52} of binary64. *)
Definition eps : Q := 1 # 4503599627370496.

(** [_handle_zeros_in_scale]: [constant_mask = scale < 10 * eps] and
    [scale[constant_mask] = 1.0]. A column whose range is below ten machine
    epsilons, a zero range included, counts as constant and is scaled by 1. *)
Definition handle_zeros_in_scale (scale : Q) : Q :=
  if Qle_bool (10 * eps) scale then scale else 1%Q.

Definition scale_ (X : list Q) : Q :=
  ((1 - 0) / handle_zeros_in_scale (data_range X))%Q.

Definition min_ (X : list Q) : Q := (0 - data_min X * scale_ X)%Q.

(** [X *= scale_; X += min_], on one entry. *)
Definition rescale (fitted : list Q) (x : Q) : Q :=
  (x * scale_ fitted + min_ fitted)%Q.

Definition transform (fitted X : list Q) : list Q := rescale fitted <$> X.

Definition fit_transform (X : list Q) : list Q := transform X X.

End MinMaxScaler.

Definition health_factor_proxy (f : Features) : Q :=
  (total_borrowed_usd f / (total_supplied_usd f + 1e-6))%Q.

(** The five columns selected by [feature_columns], as float columns. *)
Record Columns := {
  col_liquidation_count : list Q;
  col_health_factor_proxy : list Q;
  col_total_liquidated_usd : list Q;
  col_distinct_assets_borrowed : list Q;
  col_wallet_age_days : list Q;
}.

Definition column_liquidation_count (r : FeatureRow) : Q :=
  inject_Z (liquidation_count (features r)).

Definition column_health_factor_proxy (r : FeatureRow) : Q :=
  health_factor_proxy (features r).

Definition column_total_liquidated_usd (r : FeatureRow) : Q :=
  inject_Z (total_liquidated_usd (features r)).

Definition column_distinct_assets_borrowed (r : FeatureRow) : Q :=
  inject_Z (distinct_assets_borrowed (features r)).

Definition column_wallet_age_days (r : FeatureRow) : Q :=
  inject_Z (wallet_age_days (features r)).

Definition feature_columns (features_df : list FeatureRow) : Columns :=
  {| col_liquidation_count := column_liquidation_count <$> features_df;
     col_health_factor_proxy := column_health_factor_proxy <$> features_df;
     col_total_liquidated_usd := column_total_liquidated_usd <$> features_df;
     col_distinct_assets_borrowed := column_distinct_assets_borrowed <$> features_df;
     col_wallet_age_days := column_wallet_age_days <$> features_df |}.

(** [scaler.fit_transform], column by column. *)
Definition normalized_features (X : Columns) : Columns :=
  {| col_liquidation_count := MinMaxScaler.fit_transform (col_liquidation_count X);
     col_health_factor_proxy := MinMaxScaler.fit_transform (col_health_factor_proxy X);
     col_total_liquidated_usd := MinMaxScaler.fit_transform (col_total_liquidated_usd X);
     col_distinct_assets_borrowed :=
       MinMaxScaler.fit_transform (col_distinct_assets_borrowed X);
     col_wallet_age_days := MinMaxScaler.fit_transform (col_wallet_age_days X) |}.

(** [normalized_df['wallet_age_days'] = 1 - normalized_df['wallet_age_days']]. *)
Definition invert_wallet_age (normalized_df : Columns) : Columns :=
  {| col_liquidation_count := col_liquidation_count normalized_df;
     col_health_factor_proxy := col_health_factor_proxy normalized_df;
     col_total_liquidated_usd := col_total_liquidated_usd normalized_df;
     col_distinct_assets_borrowed := col_distinct_assets_borrowed normalized_df;
     col_wallet_age_days := (fun v => 1 - v)%Q <$> col_wallet_age_days normalized_df |}.

(** Arithmetic on series: a column times a scalar, the sum of two columns,
    and a scalar added to a column. *)
Definition series_scale (column : list Q) (weight : Q) : list Q :=
  (fun v => v * weight)%Q <$> column.

Definition series_add (a b : list Q) : list Q := zip_with Qplus a b.

Definition scalar_add (c : Q) (column : list Q) : list Q := Qplus c <$> column.

(** [sum(normalized_df[col] * weights[col] for col in weights)]: Python's
    [sum] starts from [0] and adds the terms in the order of [weights]. *)
Definition final_score (normalized_df : Columns) : list Q :=
  series_add
    (series_add
      (series_add
        (series_add
          (scalar_add 0 (series_scale (col_liquidation_count normalized_df) 0.40))
          (series_scale (col_health_factor_proxy normalized_df) 0.30))
        (series_scale (col_total_liquidated_usd normalized_df) 0.15))
      (series_scale (col_distinct_assets_borrowed normalized_df) 0.10))
    (series_scale (col_wallet_age_days normalized_df) 0.05).

(** [.astype(int)] on a float: truncation towards zero. *)
Definition astype_int (q : Q) : Z := Qnum q `quot` Z.pos (Qden q).

(** The part of [generate_risk_scores] after the features frame is built,
    in exact arithmetic.  With a negative supplied total the proxy of the
    program can be infinite, and the scaler then raises: the properties of
    the scorer are stated for non-negative supplied totals. *)
Definition scorer (features_df : list FeatureRow) : list (string * Z) :=
  let normalized_df := invert_wallet_age (normalized_features (feature_columns features_df)) in
  zip (wallet_id <$> features_df)
      ((fun s => astype_int (s * 1000)) <$> final_score normalized_df).

(** ** Batch run *)

(** The worker pool: [executor.map] hands back the results in the order of
    the tasks, so the fetches are run here one after the other in that
    order, each followed by the progress line of the collecting loop.  The
    pool starts the later fetches before the earlier results are read; the
    trace records the requests up to the first fetch that raises. *)
Fixpoint fetch_all (remote : Ledger) (tasks : list (string * string))
    (all_transactions : gmap string (list Event)) : Run (gmap string (list Event)) :=
  match tasks with
  | [] => mret all_transactions
  | task :: rest =>
      '(address, transactions_df) ← fetch_wallet_data_wrapper remote task;
      _ ← print (match transactions_df with
                 | [] => MsgNoRelevant address
                 | _ => MsgProcessed (length transactions_df) address
                 end);
      fetch_all remote rest (<[address := transactions_df]> all_transactions)
  end.

Definition features_list (now : Z) (wallet_addresses : list string)
    (all_transactions : gmap string (list Event)) : list FeatureRow :=
  (fun address =>
     let transactions_df := default [] (all_transactions !! address) in
     {| wallet_id := address; features := calculate_features now transactions_df |})
  <$> wallet_addresses.

(** [tasks = [(address, api_key) for address in wallet_addresses]]. *)
Definition tasks_of (wallet_addresses : list string) (api_key : string)
  : list (string * string) :=
  (fun address => (address, api_key)) <$> wallet_addresses.

(** [not api_key]: the key is [None] or the empty string. *)
Definition key_missing (api_key : option string) : bool :=
  match api_key with
  | None => true
  | Some key => bool_decide (key = "")
  end.

Definition generate_risk_scores (remote : Ledger) (now : Z)
    (wallet_addresses : list string) (api_key : option string)
  : Run (list (string * Z)) :=
  match wallet_addresses with
  | [] => mret []
  | _ =>
      if key_missing api_key then
        _ ← print MsgApiKeyNotFound; mret []
      else
        let key := default "" api_key in
        all_transactions ← fetch_all remote (tasks_of wallet_addresses key) ∅;
        mret (scorer (features_list now wallet_addresses all_transactions))
  end.

(** ** Notions used by the statements *)

(** The normalized value of a row in one feature column of the batch. *)
Definition normalized (features_df : list FeatureRow) (column : FeatureRow -> Q)
    (r : FeatureRow) : Q :=
  MinMaxScaler.rescale (column <$> features_df) (column r).

(** The weighted sum of the five normalized features of a row, the age
    column taken after its inversion. *)
Definition weighted_sum (features_df : list FeatureRow) (r : FeatureRow) : Q :=
  (0.40 * normalized features_df column_liquidation_count r
   + 0.30 * normalized features_df column_health_factor_proxy r
   + 0.15 * normalized features_df column_total_liquidated_usd r
   + 0.10 * normalized features_df column_distinct_assets_borrowed r
   + 0.05 * (1 - normalized features_df column_wallet_age_days r))%Q.

(** The entry of [final_score] for a row, in the order the program adds
    the terms. *)
Definition row_score (features_df : list FeatureRow) (r : FeatureRow) : Q :=
  (0 + normalized features_df column_liquidation_count r * 0.40
   + normalized features_df column_health_factor_proxy r * 0.30
   + normalized features_df column_total_liquidated_usd r * 0.15
   + normalized features_df column_distinct_assets_borrowed r * 0.10
   + (1 - normalized features_df column_wallet_age_days r) * 0.05)%Q.


(** The all-zero feature vector. *)
Definition zero_features : Features :=
  {| liquidation_count := 0; total_supplied_usd := 0; total_borrowed_usd := 0;
     total_liquidated_usd := 0; distinct_assets_borrowed := 0;
     wallet_age_days := 0 |}.

(** A features frame whose supplied totals are non-negative, as the totals
    extracted from ledger amounts are: the health factor proxy then divides
    by a positive number. *)
Definition supplied_nonnegative (features_df : list FeatureRow) : Prop :=
  Forall (fun r => 0 <= total_supplied_usd (features r))%Q features_df.

(** The five columns of a frame, in the order of [feature_columns]. *)
Definition columns_of (C : Columns) : list (list Q) :=
  [col_liquidation_count C; col_health_factor_proxy C; col_total_liquidated_usd C;
   col_distinct_assets_borrowed C; col_wallet_age_days C].

(** A batch of one wallet that has no events. *)
Definition lone_inactive_wallet : list FeatureRow :=
  [{| wallet_id := "0x1111111111111111111111111111111111111111";
      features := calculate_features 0 [] |}].

(** A frame of events all of whose USD values are non-negative, as the
    transfer amounts of the ledger are. *)
Definition nonnegative_values (df : list Event) : Prop :=
  Forall (fun e => 0 <= value_usd e)%Q df.

(** The arithmetic of the program in binary64, on finite numbers:
    [total_borrowed_usd] and [health_factor_proxy] as Python evaluates them
    on a supplied total [s], and the scaler and the weighted sum as
    scikit-learn and pandas evaluate them on the float64 columns of the
    features frame, operation by operation. *)
Module Binary64.

Definition total_borrowed_usd (s : float) : float := (s * 0.4)%float.

Definition health_factor_proxy (s : float) : float :=
  (total_borrowed_usd s / (s + 1e-6))%float.



(** [np.finfo(np.float64).eps]. *)
Definition eps : float := 0x1p-52%float.

Definition minimum (a b : float) : float := if (a <? b)%float then a else b.

Definition maximum (a b : float) : float := if (a <? b)%float then b else a.

Definition data_min (X : list float) : float :=
  match X with
  | [] => 0%float
  | x :: rest => foldr minimum x rest
  end.

Definition data_max (X : list float) : float :=
  match X with
  | [] => 0%float
  | x :: rest => foldr maximum x rest
  end.

Definition data_range (X : list float) : float := (data_max X - data_min X)%float.

(** [constant_mask = scale < 10 * eps] and [scale[constant_mask] = 1.0]. *)
Definition handle_zeros_in_scale (scale : float) : float :=
  if (scale <? 10 * eps)%float then 1%float else scale.

Definition scale_ (X : list float) : float :=
  ((1 - 0) / handle_zeros_in_scale (data_range X))%float.

Definition min_ (X : list float) : float := (0 - data_min X * scale_ X)%float.

(** [X *= scale_; X += min_], on one entry. *)
Definition rescale (fitted : list float) (x : float) : float :=
  (x * scale_ fitted + min_ fitted)%float.

Definition fit_transform (X : list float) : list float := rescale X <$> X.

(** The five float64 columns the scaler receives. *)
Record Columns := {
  col_liquidation_count : list float;
  col_health_factor_proxy : list float;
  col_total_liquidated_usd : list float;
  col_distinct_assets_borrowed : list float;
  col_wallet_age_days : list float;
}.

Definition normalized_features (X : Columns) : Columns :=
  {| col_liquidation_count := fit_transform (col_liquidation_count X);
     col_health_factor_proxy := fit_transform (col_health_factor_proxy X);
     col_total_liquidated_usd := fit_transform (col_total_liquidated_usd X);
     col_distinct_assets_borrowed := fit_transform (col_distinct_assets_borrowed X);
     col_wallet_age_days := fit_transform (col_wallet_age_days X) |}.

Definition invert_wallet_age (normalized_df : Columns) : Columns :=
  {| col_liquidation_count := col_liquidation_count normalized_df;
     col_health_factor_proxy := col_health_factor_proxy normalized_df;
     col_total_liquidated_usd := col_total_liquidated_usd normalized_df;
     col_distinct_assets_borrowed := col_distinct_assets_borrowed normalized_df;
     col_wallet_age_days := (fun v => 1 - v)%float <$> col_wallet_age_days normalized_df |}.

Definition series_scale (column : list float) (weight : float) : list float :=
  (fun v => v * weight)%float <$> column.

Definition series_add (a b : list float) : list float := zip_with PrimFloat.add a b.

Definition scalar_add (c : float) (column : list float) : list float :=
  PrimFloat.add c <$> column.

(** The weighted sum, added from [0] in the order of [weights]. *)
Definition final_score (normalized_df : Columns) : list float :=
  series_add
    (series_add
      (series_add
        (series_add
          (scalar_add 0 (series_scale (col_liquidation_count normalized_df) 0.40))
          (series_scale (col_health_factor_proxy normalized_df) 0.30))
        (series_scale (col_total_liquidated_usd normalized_df) 0.15))
      (series_scale (col_distinct_assets_borrowed normalized_df) 0.10))
    (series_scale (col_wallet_age_days normalized_df) 0.05).

(** [.astype(int)] on a finite float: its integer part. *)
Definition astype_int (x : float) : Z :=
  match Prim2SF x with
  | S754_finite negative mantissa exponent =>
      let magnitude :=
        match exponent with
        | Z.neg shift => (Z.pos mantissa `div` 2 ^ Z.pos shift)%Z
        | _ => (Z.pos mantissa * 2 ^ exponent)%Z
        end in
      if negative then (- magnitude)%Z else magnitude
  | _ => 0%Z
  end.


End Binary64.

(** The registry lookup of a ledger record: its contract identifier,
    lower-cased, looked up in the asset registry. *)
Definition registry_lookup (tx : RawTx) : option Asset :=
  get_compound_v2_ctokens !! lower (tx_contractAddress tx).

(** The records of a response that the fetcher retains: those of a
    successful response whose contract is in the registry. *)
Definition retained_records (response : Response) : list RawTx :=
  match response with
  | RequestException _ => []
  | JsonBody status result =>
      if bool_decide (status = "1")
      then filter (fun tx => is_Some (registry_lookup tx)) result
      else []
  end.

(** The three ways a fetch comes back without events. *)
Definition request_failed (response : Response) : Prop :=
  exists reason, response = RequestException reason.

Definition api_non_success (response : Response) : Prop :=
  exists status result, response = JsonBody status result /\ status <> "1".

Definition no_record_survives (response : Response) : Prop :=
  exists result,
    response = JsonBody "1" result
    /\ Forall (fun tx => registry_lookup tx = None) result.

(** Equality of strings up to the case of ASCII letters. *)
Definition is_upper (c : ascii) : bool :=
  ((65 <=? N_of_ascii c) && (N_of_ascii c <=? 90))%N.

Definition same_letter (a b : ascii) : Prop :=
  a = b
  \/ (is_upper a = true /\ N_of_ascii b = (N_of_ascii a + 32)%N)
  \/ (is_upper b = true /\ N_of_ascii a = (N_of_ascii b + 32)%N).

Inductive equal_ignoring_case : string -> string -> Prop :=
| equal_ignoring_case_empty : equal_ignoring_case "" ""
| equal_ignoring_case_cons (a b : ascii) (s t : string) :
    same_letter a b -> equal_ignoring_case s t ->
    equal_ignoring_case (String a s) (String b t).

(** A ledger record and the event made of it agree on the kind: Supply
    (Mint) exactly when the destination is the queried wallet, Withdraw
    (Redeem) otherwise. *)
Definition classified (wallet_address : string) (tx : RawTx) (row : Event) : Prop :=
  (event_type row = Mint <-> equal_ignoring_case (tx_to tx) wallet_address)
  /\ (event_type row = Redeem <-> ~ equal_ignoring_case (tx_to tx) wallet_address).

(** A response whose records carry what the ledger stores in the fields
    the fetcher converts with [int]: an unsigned 256-bit amount and a block
    timestamp in seconds. *)
Definition well_formed_record (tx : RawTx) : Prop :=
  (exists amount, py_int (tx_value tx) = Some amount /\ 0 <= amount < 2 ^ 256)
  /\ (exists seconds, py_int (tx_timeStamp tx) = Some seconds /\ 0 <= seconds < 2 ^ 32).

Definition well_formed_response (response : Response) : Prop :=
  match response with
  | RequestException _ => True
  | JsonBody _ result => Forall well_formed_record result
  end.

(** The effect is a request to the ledger. *)
Definition is_fetch (e : effect) : Prop :=
  match e with
  | HttpGet _ _ => True
  | Print _ => False
  end.

(** ** Sample data *)

Definition wallet_a : string := "0xAAaa00000000000000000000000000000000aaAA".

Definition wallet_b : string := "0xbbbb00000000000000000000000000000000bbbb".

Definition wallet_c : string := "0xcccc00000000000000000000000000000000cccc".

Definition wallet_d : string := "0xdddd00000000000000000000000000000000dddd".

(** A deposit of cUSDC received by [wallet_a], a cETH transfer it sends
    away, and a transfer of a token outside the registry. *)
Definition sample_records : list RawTx :=
  [ {| tx_contractAddress := "0x39AA39c021dfbae8fac545936693ac917d5e7563";
       tx_to := "0xaaaa00000000000000000000000000000000aaaa";
       tx_value := "1000000000";
       tx_timeStamp := "1700000000" |};
    {| tx_contractAddress := "0x4ddc2d193948926d02f9b1fe9e1daa0718270ed5";
       tx_to := "0xbbbb00000000000000000000000000000000bbbb";
       tx_value := "5000000000000000000";
       tx_timeStamp := "1700086400" |};
    {| tx_contractAddress := "0xdac17f958d2ee523a2206206994597c13d831ec7";
       tx_to := "0xaaaa00000000000000000000000000000000aaaa";
       tx_value := "42";
       tx_timeStamp := "1700090000" |} ].

(** A ledger that knows [wallet_a], times out on [wallet_b], reports no
    transactions for [wallet_c] and has only foreign tokens for the rest. *)
Definition sample_ledger : Ledger := fun address _ =>
  if bool_decide (address = wallet_a) then JsonBody "1" sample_records
  else if bool_decide (address = wallet_b) then RequestException "timed out"
  else if bool_decide (address = wallet_c) then JsonBody "0" []
  else JsonBody "1" (drop 2 sample_records).

Definition sample_now : Z := 1700864000.

(** Events of a wallet that supplied 1000 dollars, and of one that supplied
    2500 dollars in two deposits. *)
Definition sample_events : list Event :=
  [ {| timestamp := 1700000000; event_type := Mint;
       asset_symbol := "cUSDC"; value_usd := 1000 |};
    {| timestamp := 1700086400; event_type := Redeem;
       asset_symbol := "cETH"; value_usd := 17500 |} ].

Definition larger_events : list Event :=
  [ {| timestamp := 1690000000; event_type := Mint;
       asset_symbol := "cDAI"; value_usd := 2000 |};
    {| timestamp := 1690000500; event_type := Mint;
       asset_symbol := "cDAI"; value_usd := 500 |} ].

(** The features frame of three wallets: one with [sample_events], one
    without events and one with [larger_events]. *)
Definition sample_frame : list FeatureRow :=
  [ {| wallet_id := wallet_a; features := calculate_features sample_now sample_events |};
    {| wallet_id := wallet_b; features := calculate_features sample_now [] |};
    {| wallet_id := wallet_c; features := calculate_features sample_now larger_events |} ].






(** ** Wallet list, entry point and output *)

(** A column of the frame [pd.read_csv] builds: its header and its cells, a
    missing cell ([NaN]) being [None].  Cells are read as strings, as
    address columns are. *)
Record Column := {
  column_name : string;
  column_cells : list (option string);
}.

(** What [pd.read_csv] yields: [FileNotFoundError], or a frame, which has
    at least one column.  The other failures of the reader (an empty file,
    a file it cannot parse), which [get_wallet_addresses] does not catch,
    are outside the model. *)
Inductive CsvRead :=
| CsvFileNotFound
| CsvFrame (first_column : Column) (other_columns : list Column).

Definition FileSystem := string -> CsvRead.

(** ['name' in df.columns] and [df['name']]. *)
Definition find_column (name : string) (columns : list Column) : option Column :=
  List.find (fun c => bool_decide (column_name c = name)) columns.

(** [Series.dropna()]. *)
Definition series_dropna (cells : list (option string)) : list string :=
  omap id cells.

(** [Series.unique()]: the values in the order of their first appearance. *)
Fixpoint series_unique (values : list string) : list string :=
  match values with
  | [] => []
  | v :: rest => v :: filter (fun x => x <> v) (series_unique rest)
  end.

(** The column the wallet list is read from: [wallet_id] when the frame has
    it, else [address], else the first column. *)
Definition wallet_column (first_column : Column) (other_columns : list Column)
  : Column :=
  let columns := first_column :: other_columns in
  match find_column "wallet_id" columns with
  | Some c => c
  | None =>
      match find_column "address" columns with
      | Some c => c
      | None => first_column
      end
  end.

(** The effects of the program around the batch run: the lines printed by
    [get_wallet_addresses] and by the entry point, the batch run's own
    effects, and the file written by [to_csv]. *)
Inductive io_effect :=
| PrintFileNotFound (file_path : string)
| Pipeline (e : effect)
| ToCsv (path : string) (rows : list (string * Z))
| PrintSuccess (wallet_count : nat) (output_path : string)
| PrintElapsed (seconds : Q).

Definition get_wallet_addresses (files : FileSystem) (file_path : string)
  : list io_effect * list string :=
  match files file_path with
  | CsvFrame first_column other_columns =>
      ([], series_unique
             (series_dropna (column_cells (wallet_column first_column other_columns))))
  | CsvFileNotFound => ([PrintFileNotFound file_path], [])
  end.

(** [generate_risk_scores(wallets_file, api_key)] with its first line, the
    reading of the wallet list, included. *)
Definition generate_risk_scores_from_file (files : FileSystem) (remote : Ledger)
    (now : Z) (wallets_file : string) (api_key : option string)
  : list io_effect * (exn + list (string * Z)) :=
  let '(printed, wallet_addresses) := get_wallet_addresses files wallets_file in
  let run := generate_risk_scores remote now wallet_addresses api_key in
  (printed ++ (Pipeline <$> trace run), outcome run).

(** [os.getenv] on the environment left by [load_dotenv()]. *)
Definition os_getenv (environ : gmap string string) (name : string) : option string :=
  environ !! name.

Definition INPUT_CSV_PATH : string := "wallets.csv".

Definition OUTPUT_CSV_PATH : string := "wallet_risk_scores.csv".

(** The script's entry point; [start_time] and [end_time] are the two
    readings of [time.time()]. *)
Definition main (environ : gmap string string) (files : FileSystem)
    (remote : Ledger) (now : Z) (start_time end_time : Q)
  : list io_effect * (exn + unit) :=
  let ETHERSCAN_API_KEY := os_getenv environ "ETHERSCAN_API_KEY" in
  match generate_risk_scores_from_file files remote now INPUT_CSV_PATH ETHERSCAN_API_KEY with
  | (effects, inl e) => (effects, inl e)
  | (effects, inr []) => (effects, inr tt)
  | (effects, inr risk_scores_df) =>
      (effects ++ [ToCsv OUTPUT_CSV_PATH risk_scores_df;
                   PrintSuccess 104 OUTPUT_CSV_PATH;
                   PrintElapsed (end_time - start_time)%Q],
       inr tt)
  end.

(** The requests to the ledger among the effects of a run. *)
Definition requests (effects : list effect) : list (string * string) :=
  omap (fun e => match e with
                 | HttpGet address apikey => Some (address, apikey)
                 | Print _ => None
                 end) effects.

(** The progress lines of the collecting loop among the effects of a run. *)
Definition progress_lines (effects : list effect) : list message :=
  omap (fun e => match e with
                 | Print (MsgProcessed count wallet) => Some (MsgProcessed count wallet)
                 | Print (MsgNoRelevant wallet) => Some (MsgNoRelevant wallet)
                 | _ => None
                 end) effects.

(** The files written among the effects of the program. *)
Definition files_written (effects : list io_effect)
  : list (string * list (string * Z)) :=
  omap (fun e => match e with
                 | ToCsv path rows => Some (path, rows)
                 | _ => None
                 end) effects.

(** The requests to the ledger among the effects of the program. *)
Definition ledger_requests (effects : list io_effect) : list (string * string) :=
  requests (omap (fun e => match e with
                           | Pipeline inner => Some inner
                           | _ => None
                           end) effects).

(** A wallets file with a header other than [wallet_id], duplicates and a
    missing cell. *)
Definition sample_files : FileSystem := fun file_path =>
  if bool_decide (file_path = "wallets.csv") then
    CsvFrame
      {| column_name := "label"; column_cells := [Some "x"; Some "y"; None; Some "z"] |}
      [ {| column_name := "address";
           column_cells := [Some wallet_a; Some wallet_b; None; Some wallet_a;
                            Some wallet_d] |} ]
  else CsvFileNotFound.

(** A record whose amount or timestamp is not a signed numeral of ASCII
    digits. *)
Definition malformed_record (tx : RawTx) : Prop :=
  py_int (tx_value tx) = None \/ py_int (tx_timeStamp tx) = None.

(** An ASCII letter, and a string that holds one: [int] raises on such a
    string, whatever else it holds. *)
Definition is_letter (c : ascii) : bool :=
  let n := N_of_ascii c in
  ((65 <=? n) && (n <=? 90) || (97 <=? n) && (n <=? 122))%N.

Fixpoint has_letter (s : string) : bool :=
  match s with
  | EmptyString => false
  | String c r => is_letter c || has_letter r
  end.

(** A record on which the conversion of the amount or of the timestamp
    raises: one of the two holds a letter. *)
Definition unreadable_record (tx : RawTx) : Prop :=
  has_letter (tx_value tx) = true \/ has_letter (tx_timeStamp tx) = true.

(** The response of a wallet holds a record of a registry token that is
    unreadable. *)
Definition unreadable_response (remote : Ledger) (api_key wallet_address : string)
  : Prop :=
  Exists unreadable_record (retained_records (remote wallet_address api_key)).

(** The responses of all wallets of a list are well formed. *)
Definition well_formed_responses (remote : Ledger) (api_key : string)
    (wallet_addresses : list string) : Prop :=
  Forall (fun address => well_formed_response (remote address api_key))
    wallet_addresses.

(** The events a fetch returns, and [[]] when it raises. *)
Definition fetched_events (remote : Ledger) (api_key wallet_address : string)
  : list Event :=
  match outcome (fetch_real_transactions remote wallet_address api_key) with
  | inr rows => rows
  | inl _ => []
  end.

(** The fetch of a wallet returns. *)
Definition fetch_succeeds (remote : Ledger) (api_key wallet_address : string) : Prop :=
  exists rows,
    outcome (fetch_real_transactions remote wallet_address api_key) = inr rows.

(** The progress line the collecting loop prints for a wallet. *)
Definition progress_line (remote : Ledger) (api_key wallet_address : string)
  : message :=
  match fetched_events remote api_key wallet_address with
  | [] => MsgNoRelevant wallet_address
  | rows => MsgProcessed (length rows) wallet_address
  end.

(** The row of the features frame built for a wallet from what its fetch
    returned. *)
Definition feature_row (remote : Ledger) (now : Z) (api_key wallet_address : string)
  : FeatureRow :=
  {| wallet_id := wallet_address;
     features := calculate_features now (fetched_events remote api_key wallet_address) |}.

(** A ledger with a record of a registry token whose amount is not a
    number. *)
Definition broken_ledger : Ledger := fun address _ =>
  if bool_decide (address = wallet_b) then
    JsonBody "1"
      [ {| tx_contractAddress := "0x5d3a536e4d6dbd6114cc1ead35777bab948e3643";
           tx_to := wallet_b; tx_value := "0x10"; tx_timeStamp := "1700000000" |} ]
  else sample_ledger address "".

(** A response without the records of tokens outside the registry. *)
Definition without_foreign_records (response : Response) : Response :=
  match response with
  | RequestException reason => RequestException reason
  | JsonBody status result =>
      JsonBody status (filter (fun tx => is_Some (registry_lookup tx)) result)
  end.

(** The symbols of the registry. *)
Definition registry_symbols : list string :=
  (fun entry => symbol entry.2) <$> map_to_list get_compound_v2_ctokens.

(** Two feature vectors with the same counts and the same age: the
    entries computed without float addition. *)
Definition same_counts_and_age (f g : Features) : Prop :=
  liquidation_count f = liquidation_count g
  /\ total_liquidated_usd f = total_liquidated_usd g
  /\ distinct_assets_borrowed f = distinct_assets_borrowed g
  /\ wallet_age_days f = wallet_age_days g.

(** The features from which the row [r'] scores at least as high as the
    row [r]: no fewer liquidations, a proxy, a liquidated total and a number
    of assets that are no smaller, and an age that is no greater. *)
Definition at_most_as_risky (r r' : FeatureRow) : Prop :=
  (column_liquidation_count r <= column_liquidation_count r'
   /\ column_health_factor_proxy r <= column_health_factor_proxy r'
   /\ column_total_liquidated_usd r <= column_total_liquidated_usd r'
   /\ column_distinct_assets_borrowed r <= column_distinct_assets_borrowed r'
   /\ column_wallet_age_days r' <= column_wallet_age_days r)%Q.

(** A transactions map in which no wallet of the list has an event. *)
Definition all_inactive (wallet_addresses : list string)
    (all_transactions : gmap string (list Event)) : Prop :=
  Forall (fun address => default [] (all_transactions !! address) = [])
    wallet_addresses.

(** The transactions map of a batch in which [wallet_a] and [wallet_c] have
    events. *)
Definition sample_transactions : gmap string (list Event) :=
  <[wallet_a := sample_events]> (<[wallet_c := larger_events]> ∅).

(** Events of a wallet that supplied more than the one of [larger_events],
    in two assets and more recently. *)
Definition richer_events : list Event :=
  [ {| timestamp := 1700000000; event_type := Mint;
       asset_symbol := "cDAI"; value_usd := 3000 |};
    {| timestamp := 1700000600; event_type := Mint;
       asset_symbol := "cUSDC"; value_usd := 10 |} ].

Definition ordered_frame : list FeatureRow :=
  [ {| wallet_id := wallet_c; features := calculate_features sample_now larger_events |};
    {| wallet_id := wallet_d; features := calculate_features sample_now richer_events |} ].

(** * Properties *)

(** ** Min-max scaling of a column *)

Section ScalerFacts.
Local Open Scope Q_scope.
Import MinMaxScaler.

Lemma data_min_le (X : list Q) (x : Q) : In x X -> data_min X <= x.
Proof.
  destruct X as [|a rest]; [intros []|]. simpl.
  revert a x. induction rest as [|b rest IH]; simpl; intros a x Hin.
  - destruct Hin as [->|[]]. apply Qle_refl.
  - destruct Hin as [->|[->|Hin]].
    + eapply Qle_trans; [apply Q.le_min_r|]. apply IH. now left.
    + apply Q.le_min_l.
    + eapply Qle_trans; [apply Q.le_min_r|]. apply IH. now right.
Qed.

Lemma data_max_ge (X : list Q) (x : Q) : In x X -> x <= data_max X.
Proof.
  destruct X as [|a rest]; [intros []|]. simpl.
  revert a x. induction rest as [|b rest IH]; simpl; intros a x Hin.
  - destruct Hin as [->|[]]. apply Qle_refl.
  - destruct Hin as [->|[->|Hin]].
    + eapply Qle_trans; [|apply Q.le_max_r]. apply IH. now left.
    + apply Q.le_max_l.
    + eapply Qle_trans; [|apply Q.le_max_r]. apply IH. now right.
Qed.

Lemma data_range_nonneg (X : list Q) (x : Q) : In x X -> 0 <= data_range X.
Proof.
  intros Hin. unfold data_range.
  assert (Hlo := data_min_le X x Hin). assert (Hhi := data_max_ge X x Hin).
  lra.
Qed.

(** A column whose range is below the threshold is only shifted. *)
Lemma rescale_near_constant (X : list Q) (x : Q) :
  data_range X < 10 * eps -> rescale X x == x - data_min X.
Proof.
  intros Hlt. unfold rescale, min_, scale_, handle_zeros_in_scale.
  destruct (Qle_bool (10 * eps) (data_range X)) eqn:Hz.
  - apply Qle_bool_iff in Hz. exfalso. exact (Qlt_not_le _ _ Hlt Hz).
  - field.
Qed.

Lemma rescale_tied (X : list Q) (x : Q) :
  In x X -> data_min X == data_max X -> rescale X x == 0.
Proof.
  intros Hin Heq.
  assert (Hlo := data_min_le X x Hin). assert (Hhi := data_max_ge X x Hin).
  rewrite rescale_near_constant.
  - lra.
  - unfold data_range. rewrite Heq. unfold eps. lra.
Qed.

(** A column whose range reaches the threshold is divided by its range. *)
Lemma rescale_spread (X : list Q) (x : Q) :
  10 * eps <= data_range X ->
  rescale X x == (x - data_min X) / (data_max X - data_min X).
Proof.
  intros Hge.
  assert (Hr : ~ data_max X - data_min X == 0).
  { unfold data_range, eps in Hge. lra. }
  unfold rescale, min_, scale_, handle_zeros_in_scale.
  destruct (Qle_bool (10 * eps) (data_range X)) eqn:Hz.
  - unfold data_range. field. exact Hr.
  - exfalso. apply Qle_bool_iff in Hge. congruence.
Qed.

Lemma rescale_unit_interval (X : list Q) (x : Q) :
  In x X -> 0 <= rescale X x <= 1.
Proof.
  intros Hin.
  assert (Hlo := data_min_le X x Hin). assert (Hhi := data_max_ge X x Hin).
  destruct (Qlt_le_dec (data_range X) (10 * eps)) as [Hlt|Hge].
  - rewrite (rescale_near_constant X x Hlt).
    unfold data_range, eps in Hlt. lra.
  - rewrite (rescale_spread X x Hge).
    assert (Hpos : 0 < data_max X - data_min X).
    { unfold data_range, eps in Hge. lra. }
    split.
    + apply Qle_shift_div_l; [exact Hpos|]. lra.
    + apply Qle_shift_div_r; [exact Hpos|]. lra.
Qed.


End ScalerFacts.


(** ** Scores *)

Section ScoreFacts.
Local Open Scope Q_scope.

Lemma astype_int_floor (q : Q) : 0 <= q -> astype_int q = Qfloor q.
Proof.
  destruct q as [n d]. unfold Qle, astype_int, Qfloor. simpl. intros H.
  apply Z.quot_div_nonneg; lia.
Qed.

Lemma fit_transform_fmap {A} (column : A -> Q) (rows : list A) :
  MinMaxScaler.fit_transform (column <$> rows)
  = (fun r => MinMaxScaler.rescale (column <$> rows) (column r)) <$> rows.
Proof.
  unfold MinMaxScaler.fit_transform, MinMaxScaler.transform.
  rewrite <- list_fmap_compose. reflexivity.
Qed.

Lemma final_score_rows (features_df : list FeatureRow) :
  final_score (invert_wallet_age (normalized_features (feature_columns features_df)))
  = row_score features_df <$> features_df.
Proof.
  unfold final_score, invert_wallet_age, normalized_features, feature_columns,
    series_add, series_scale, scalar_add. simpl.
  rewrite !fit_transform_fmap.
  rewrite <- !list_fmap_compose.
  rewrite !zip_with_fmap_l, !zip_with_fmap_r, !zip_with_diag.
  repeat (rewrite zip_with_fmap_l, zip_with_diag).
  reflexivity.
Qed.

Lemma scorer_rows (features_df : list FeatureRow) :
  scorer features_df
  = (fun r => (wallet_id r, astype_int (row_score features_df r * 1000))) <$> features_df.
Proof.
  unfold scorer. rewrite final_score_rows, <- list_fmap_compose.
  rewrite zip_with_fmap_l, zip_with_fmap_r, zip_with_diag.
  reflexivity.
Qed.

Lemma normalized_unit_interval (features_df : list FeatureRow)
    (column : FeatureRow -> Q) (r : FeatureRow) :
  In r features_df -> 0 <= normalized features_df column r <= 1.
Proof.
  intros Hin. apply rescale_unit_interval, in_map, Hin.
Qed.

Lemma row_score_weighted_sum (features_df : list FeatureRow) (r : FeatureRow) :
  row_score features_df r == weighted_sum features_df r.
Proof. unfold row_score, weighted_sum. ring. Qed.

Lemma weighted_sum_unit_interval (features_df : list FeatureRow) (r : FeatureRow) :
  In r features_df -> 0 <= weighted_sum features_df r <= 1.
Proof.
  intros Hin. unfold weighted_sum.
  pose proof (normalized_unit_interval features_df column_liquidation_count r Hin).
  pose proof (normalized_unit_interval features_df column_health_factor_proxy r Hin).
  pose proof (normalized_unit_interval features_df column_total_liquidated_usd r Hin).
  pose proof (normalized_unit_interval features_df column_distinct_assets_borrowed r Hin).
  pose proof (normalized_unit_interval features_df column_wallet_age_days r Hin).
  lra.
Qed.

Lemma score_of_row (features_df : list FeatureRow) (r : FeatureRow) :
  In r features_df ->
  astype_int (row_score features_df r * 1000)
  = Qfloor (weighted_sum features_df r * 1000).
Proof.
  intros Hin. pose proof (weighted_sum_unit_interval features_df r Hin) as Hw.
  pose proof (row_score_weighted_sum features_df r) as Heq.
  rewrite astype_int_floor by lra.
  apply Qfloor_comp. rewrite Heq. reflexivity.
Qed.


End ScoreFacts.


(** ** A batch of one wallet *)

Section SingleWallet.
Local Open Scope Q_scope.

Lemma normalized_single (row : FeatureRow) (column : FeatureRow -> Q) :
  normalized [row] column row == 0.
Proof.
  unfold normalized. apply rescale_tied.
  - now left.
  - reflexivity.
Qed.

Lemma fit_transform_single (row : FeatureRow) (column : FeatureRow -> Q) :
  Forall (fun v => v == 0) (MinMaxScaler.fit_transform (column <$> [row])).
Proof.
  rewrite fit_transform_fmap. apply Forall_cons. split; [|constructor].
  apply (normalized_single row column).
Qed.

Lemma row_score_single (row : FeatureRow) : row_score [row] row * 1000 == 50.
Proof.
  unfold row_score. rewrite !normalized_single. reflexivity.
Qed.

End SingleWallet.

(** C1, as the program has it. In a batch of exactly one wallet, of
    non-negative supplied total, every feature column has its minimum equal
    to its maximum and is normalized to 0; the age column is then inverted
    to 1, so the wallet's score is [floor (0.05 * 1000) = 50]. *)
Theorem single_wallet_score (row : FeatureRow) :
  supplied_nonnegative [row] ->
  let X := feature_columns [row] in
  Forall (fun column => MinMaxScaler.data_min column = MinMaxScaler.data_max column)
    (columns_of X)
  /\ Forall (Forall (fun v => v == 0)%Q) (columns_of (normalized_features X))
  /\ Forall (fun v => v == 1)%Q
       (col_wallet_age_days (invert_wallet_age (normalized_features X)))
  /\ scorer [row] = [(wallet_id row, 50)].
Proof.
  intros _. cbv zeta. split; [|split; [|split]].
  - repeat constructor.
  - unfold columns_of, normalized_features, feature_columns; cbn [col_liquidation_count
      col_health_factor_proxy col_total_liquidated_usd col_distinct_assets_borrowed
      col_wallet_age_days].
    repeat (apply Forall_cons; split; [apply fit_transform_single|]). constructor.
  - unfold invert_wallet_age, normalized_features, feature_columns;
      cbn [col_wallet_age_days].
    rewrite fit_transform_fmap. apply Forall_cons; split; [|constructor].
    change (1 - normalized [row] column_wallet_age_days row == 1)%Q.
    rewrite normalized_single. reflexivity.
  - rewrite scorer_rows. cbn [fmap list_fmap]. f_equal. f_equal.
    pose proof (row_score_single row) as H.
    rewrite astype_int_floor by (rewrite H; discriminate).
    rewrite (Qfloor_comp _ _ H). reflexivity.
Qed.

(** C1 fails as stated: the single wallet of a batch scores 50, not 0. *)
Lemma single_wallet_score_not_zero :
  scorer lone_inactive_wallet = [("0x1111111111111111111111111111111111111111", 50)]
  /\ scorer lone_inactive_wallet <> [("0x1111111111111111111111111111111111111111", 0)].
Proof.
  assert (H : scorer lone_inactive_wallet
              = [("0x1111111111111111111111111111111111111111", 50)])
    by (vm_compute; reflexivity).
  split; [exact H|]. rewrite H. discriminate.
Qed.

(** ** Features of one wallet *)

(** C6. A wallet whose event sequence is empty gets the all-zero feature
    vector, its age included; in a batch, the row of such a wallet is the
    all-zero row. *)
Theorem empty_events_zero_features (now : Z) :
  calculate_features now [] = zero_features
  /\ forall (wallet_addresses : list string)
       (all_transactions : gmap string (list Event)) (address : string),
       address ∈ wallet_addresses ->
       default [] (all_transactions !! address) = [] ->
       {| wallet_id := address; features := zero_features |}
       ∈ features_list now wallet_addresses all_transactions.
Proof.
  split; [reflexivity|].
  intros wallet_addresses all_transactions address Hin Hempty.
  unfold features_list. apply list_elem_of_fmap.
  exists address. split; [|exact Hin].
  rewrite Hempty. reflexivity.
Qed.

Lemma total_borrowed_of_supplied (now : Z) (df : list Event) :
  (total_borrowed_usd (calculate_features now df)
   == 0.4 * total_supplied_usd (calculate_features now df))%Q.
Proof.
  destruct df as [|first others].
  - reflexivity.
  - cbn [calculate_features total_borrowed_usd total_supplied_usd].
    apply Qmult_comm.
Qed.

(** C5. For every wallet, with or without events, the borrowed total of the
    extracted features is 0.4 times their supplied total. *)
Theorem borrowed_is_fraction_of_supplied (now : Z) (df : list Event) :
  let f := calculate_features now df in
  (total_borrowed_usd f == 0.4 * total_supplied_usd f)%Q
  /\ (df = [] -> total_borrowed_usd f = 0%Q /\ total_supplied_usd f = 0%Q).
Proof.
  split; [apply total_borrowed_of_supplied|].
  intros ->. split; reflexivity.
Qed.

Section HealthFactor.
Local Open Scope Q_scope.


Lemma series_sum_nonneg (values : list Q) :
  Forall (fun v => 0 <= v) values -> 0 <= series_sum values.
Proof.
  induction 1 as [|v rest Hv _ IH]; cbn [series_sum foldr].
  - apply Qle_refl.
  - change (0 <= v + series_sum rest). lra.
Qed.

Lemma total_supplied_nonneg (now : Z) (df : list Event) :
  nonnegative_values df -> 0 <= total_supplied_usd (calculate_features now df).
Proof.
  intros Hdf. destruct df as [|first others]; [apply Qle_refl|].
  cbn [calculate_features total_supplied_usd].
  apply series_sum_nonneg, Forall_fmap, Forall_forall.
  intros e He. apply list_elem_of_filter in He as [_ He].
  unfold nonnegative_values in Hdf. rewrite Forall_forall in Hdf.
  apply Hdf, He.
Qed.





End HealthFactor.

Lemma features_list_supplied_nonnegative (now : Z) (wallet_addresses : list string)
    (all_transactions : gmap string (list Event)) :
  map_Forall (fun _ df => nonnegative_values df) all_transactions ->
  supplied_nonnegative (features_list now wallet_addresses all_transactions).
Proof.
  intros Hall. unfold supplied_nonnegative, features_list.
  apply Forall_fmap, Forall_forall. intros address _. cbn [features compose].
  apply total_supplied_nonneg.
  destruct (all_transactions !! address) as [df|] eqn:Hdf; cbn [default].
  - apply (Hall address df Hdf).
  - constructor.
Qed.

(** ** Event fetcher *)

Section Lowercase.
Local Open Scope N_scope.

Lemma lower_ascii_upper (c : ascii) :
  is_upper c = true -> N_of_ascii (lower_ascii c) = N_of_ascii c + 32.
Proof.
  unfold is_upper, lower_ascii. intros H. rewrite H.
  apply andb_prop in H as [H1 H2].
  apply N.leb_le in H1, H2. apply N_ascii_embedding. lia.
Qed.

Lemma lower_ascii_other (c : ascii) : is_upper c = false -> lower_ascii c = c.
Proof. unfold is_upper, lower_ascii. intros H. rewrite H. reflexivity. Qed.

Lemma N_of_ascii_inj (a b : ascii) : N_of_ascii a = N_of_ascii b -> a = b.
Proof.
  intros H. rewrite <- (ascii_N_embedding a), <- (ascii_N_embedding b), H.
  reflexivity.
Qed.

Lemma is_upper_range (c : ascii) :
  is_upper c = true <-> 65 <= N_of_ascii c <= 90.
Proof.
  unfold is_upper. rewrite andb_true_iff, !N.leb_le. reflexivity.
Qed.

Lemma is_upper_false_range (c : ascii) :
  is_upper c = false <-> N_of_ascii c < 65 \/ 90 < N_of_ascii c.
Proof.
  unfold is_upper. rewrite andb_false_iff, !N.leb_gt. reflexivity.
Qed.

Lemma lower_ascii_same_letter (a b : ascii) :
  lower_ascii a = lower_ascii b <-> same_letter a b.
Proof.
  unfold same_letter. split.
  - intros H. apply (f_equal N_of_ascii) in H.
    destruct (is_upper a) eqn:Ha, (is_upper b) eqn:Hb.
    + left. rewrite !lower_ascii_upper in H by assumption.
      apply N_of_ascii_inj. lia.
    + right; left. split; [reflexivity|].
      rewrite lower_ascii_upper, (lower_ascii_other b) in H by assumption.
      congruence.
    + right; right. split; [reflexivity|].
      rewrite (lower_ascii_other a), lower_ascii_upper in H by assumption.
      congruence.
    + left. rewrite !lower_ascii_other in H by assumption.
      apply N_of_ascii_inj, H.
  - intros [->|[[Ha Hb]|[Hb Ha]]]; [reflexivity| |].
    + apply N_of_ascii_inj. rewrite (lower_ascii_upper a Ha).
      rewrite lower_ascii_other; [congruence|].
      apply is_upper_range in Ha. apply is_upper_false_range. lia.
    + apply N_of_ascii_inj. rewrite (lower_ascii_upper b Hb).
      rewrite lower_ascii_other; [congruence|].
      apply is_upper_range in Hb. apply is_upper_false_range. lia.
Qed.

Lemma lower_equal_ignoring_case (s t : string) :
  lower s = lower t <-> equal_ignoring_case s t.
Proof.
  split.
  - revert t. induction s as [|a s IH]; intros [|b t] H; try discriminate.
    + constructor.
    + cbn [lower] in H. injection H as Hc Hr. constructor.
      * apply lower_ascii_same_letter, Hc.
      * apply IH, Hr.
  - induction 1 as [|a b s t Hab _ IH]; [reflexivity|].
    cbn [lower]. f_equal; [apply lower_ascii_same_letter, Hab|exact IH].
Qed.

End Lowercase.

Lemma in_ctoken_addresses (address : string) (ctoken_map : gmap string Asset) :
  address ∈ ctoken_addresses ctoken_map <-> is_Some (ctoken_map !! address).
Proof.
  unfold ctoken_addresses. rewrite list_elem_of_fmap. split.
  - intros [[k v] [-> Hin]]. apply elem_of_map_to_list in Hin. eauto.
  - intros [v Hv]. exists (address, v). split; [reflexivity|].
    apply elem_of_map_to_list, Hv.
Qed.

Lemma transaction_of_skipped (wallet_address : string) (tx : RawTx) :
  registry_lookup tx = None -> transaction_of wallet_address tx = None.
Proof.
  unfold registry_lookup, transaction_of. intros H.
  rewrite bool_decide_eq_false_2; [reflexivity|].
  rewrite in_ctoken_addresses, H. apply is_Some_None.
Qed.

Lemma transaction_of_retained (wallet_address : string) (tx : RawTx) :
  is_Some (registry_lookup tx) -> is_Some (transaction_of wallet_address tx).
Proof.
  unfold registry_lookup, transaction_of. intros H.
  rewrite bool_decide_eq_true_2; [eauto|].
  apply in_ctoken_addresses, H.
Qed.

Lemma transaction_of_classified (wallet_address : string) (tx : RawTx) (row : Event) :
  transaction_of wallet_address tx = Some (inr row) ->
  classified wallet_address tx row.
Proof.
  unfold transaction_of, classified. intros H.
  case_bool_decide; [|discriminate].
  destruct (get_compound_v2_ctokens !! _) as [token_info|]; [|discriminate].
  destruct (py_int (tx_value tx)) as [value_raw|]; [|discriminate].
  destruct (py_int (tx_timeStamp tx)) as [seconds|]; [|discriminate].
  injection H as <-. cbn [event_type].
  rewrite <- lower_equal_ignoring_case.
  case_bool_decide; split; split; intros; congruence.
Qed.

Lemma collect_transactions_retained (wallet_address : string)
    (result : list RawTx) (rows : list Event) :
  collect_transactions wallet_address result = inr rows ->
  Forall2 (fun tx row => transaction_of wallet_address tx = Some (inr row))
    (filter (fun tx => is_Some (registry_lookup tx)) result) rows.
Proof.
  revert rows. induction result as [|tx rest IH]; intros rows H.
  - injection H as <-. constructor.
  - cbn [collect_transactions] in H.
    destruct (registry_lookup tx) as [asset|] eqn:Hreg.
    + rewrite filter_cons_True by (rewrite Hreg; eauto).
      destruct (transaction_of wallet_address tx) as [[e|row]|] eqn:Htx.
      * discriminate.
      * destruct (collect_transactions wallet_address rest) as [e|rows']; [discriminate|].
        injection H as <-. constructor; [exact Htx|]. apply IH. reflexivity.
      * pose proof (transaction_of_retained wallet_address tx) as Hsome.
        rewrite Hreg, Htx in Hsome. destruct Hsome as [? ?]; [eauto|discriminate].
    + rewrite filter_cons_False by (rewrite Hreg; apply is_Some_None).
      rewrite (transaction_of_skipped _ _ Hreg) in H. apply IH, H.
Qed.

Lemma collect_transactions_none_survive (wallet_address : string)
    (result : list RawTx) :
  Forall (fun tx => registry_lookup tx = None) result ->
  collect_transactions wallet_address result = inr [].
Proof.
  induction 1 as [|tx rest Htx _ IH]; [reflexivity|].
  cbn [collect_transactions]. rewrite (transaction_of_skipped _ _ Htx). exact IH.
Qed.

Lemma fetch_outcome (remote : Ledger) (wallet_address api_key : string) :
  outcome (fetch_real_transactions remote wallet_address api_key)
  = match remote wallet_address api_key with
    | RequestException _ => inr []
    | JsonBody status result =>
        if bool_decide (status = "1")
        then collect_transactions wallet_address result
        else inr []
    end.
Proof.
  unfold fetch_real_transactions, http_get, print, outcome.
  cbn [mbind Run_bind mret Run_ret app snd].
  destruct (remote wallet_address api_key) as [reason|status result].
  - reflexivity.
  - case_bool_decide as Hs; case_bool_decide as Hs'; try contradiction.
    + reflexivity.
    + destruct (collect_transactions wallet_address result) as [e|[|row rows]];
        reflexivity.
Qed.

(** C7. A fetch whose request fails, or whose response reports a status
    other than success, or none of whose records is in the asset registry,
    returns the empty sequence; it does not raise. *)
Theorem failed_fetch_is_empty (remote : Ledger) (wallet_address api_key : string) :
  request_failed (remote wallet_address api_key)
  \/ api_non_success (remote wallet_address api_key)
  \/ no_record_survives (remote wallet_address api_key) ->
  outcome (fetch_real_transactions remote wallet_address api_key) = inr [].
Proof.
  rewrite fetch_outcome.
  intros [[reason ->]|[(status & result & -> & Hs)|(result & -> & Hnone)]].
  - reflexivity.
  - rewrite bool_decide_eq_false_2 by exact Hs. reflexivity.
  - rewrite bool_decide_eq_true_2 by reflexivity.
    apply collect_transactions_none_survive, Hnone.
Qed.

(** C8. Every record the fetcher retains becomes an event of kind Supply
    (Mint) if and only if its destination address equals the queried wallet
    up to letter case, and of kind Withdraw (Redeem) otherwise. *)
Theorem fetched_events_classified (remote : Ledger)
    (wallet_address api_key : string) (rows : list Event) :
  outcome (fetch_real_transactions remote wallet_address api_key) = inr rows ->
  Forall2 (classified wallet_address)
    (retained_records (remote wallet_address api_key)) rows.
Proof.
  rewrite fetch_outcome. unfold retained_records.
  destruct (remote wallet_address api_key) as [reason|status result].
  - intros H. injection H as <-. constructor.
  - case_bool_decide as Hs.
    + intros H. apply collect_transactions_retained in H.
      eapply Forall2_impl; [exact H|]. intros tx row Htx.
      eapply transaction_of_classified, Htx.
    + intros H. injection H as <-. constructor.
Qed.

(** ** Batch run *)

Section RunFacts.
Context {A B : Type}.

Lemma outcome_bind (m : Run A) (k : A -> Run B) :
  outcome (m ≫= k)
  = match outcome m with
    | inl e => inl e
    | inr a => outcome (k a)
    end.
Proof.
  destruct m as [t [e|a]]; [reflexivity|].
  unfold outcome, mbind, Run_bind. cbn [snd]. destruct (k a). reflexivity.
Qed.

Lemma trace_bind (m : Run A) (k : A -> Run B) :
  trace (m ≫= k)
  = match outcome m with
    | inl e => trace m
    | inr a => trace m ++ trace (k a)
    end.
Proof.
  destruct m as [t [e|a]]; [reflexivity|].
  unfold trace, outcome, mbind, Run_bind. cbn [fst snd]. destruct (k a). reflexivity.
Qed.

End RunFacts.

Lemma transaction_of_well_formed (wallet_address : string) (tx : RawTx) :
  well_formed_record tx ->
  transaction_of wallet_address tx = None
  \/ exists row, transaction_of wallet_address tx = Some (inr row).
Proof.
  intros [(value_raw & Hv & _) (seconds & Ht & _)]. unfold transaction_of.
  case_bool_decide as Hin; [right|left; reflexivity].
  apply in_ctoken_addresses in Hin as [token_info ->].
  rewrite Hv, Ht. eauto.
Qed.

Lemma collect_transactions_well_formed (wallet_address : string)
    (result : list RawTx) :
  Forall well_formed_record result ->
  exists rows, collect_transactions wallet_address result = inr rows.
Proof.
  induction 1 as [|tx rest Htx _ [rows IH]]; [exists []; reflexivity|].
  cbn [collect_transactions].
  destruct (transaction_of_well_formed wallet_address tx Htx) as [->|[row ->]].
  - eauto.
  - rewrite IH. eauto.
Qed.

Lemma fetch_well_formed (remote : Ledger) (wallet_address api_key : string) :
  well_formed_response (remote wallet_address api_key) ->
  exists rows,
    outcome (fetch_real_transactions remote wallet_address api_key) = inr rows.
Proof.
  rewrite fetch_outcome. unfold well_formed_response.
  destruct (remote wallet_address api_key) as [reason|status result]; [eauto|].
  intros Hwf. case_bool_decide; [|eauto].
  apply collect_transactions_well_formed, Hwf.
Qed.

Lemma fetch_all_well_formed (remote : Ledger) (api_key : string)
    (wallet_addresses : list string) (acc : gmap string (list Event)) :
  Forall (fun address => well_formed_response (remote address api_key))
    wallet_addresses ->
  exists all_transactions,
    outcome (fetch_all remote (tasks_of wallet_addresses api_key) acc)
    = inr all_transactions.
Proof.
  intros Hwf. revert acc.
  induction Hwf as [|address rest Haddr _ IH]; intros acc; [eexists; reflexivity|].
  cbn [tasks_of fmap list_fmap fetch_all]. unfold fetch_wallet_data_wrapper.
  destruct (fetch_well_formed remote address api_key Haddr) as [rows Hrows].
  rewrite !outcome_bind, Hrows. cbn [outcome mret Run_ret snd].
  rewrite outcome_bind. cbn [outcome print snd]. apply IH.
Qed.

(** *** Frames scored on a well-formed ledger *)

Lemma registry_assets_positive :
  map_Forall (fun _ asset => (0 < price_usd asset)%Q /\ 0 <= underlying_decimals asset)
    get_compound_v2_ctokens.
Proof.
  apply map_Forall_to_list. vm_compute.
  repeat (constructor; [split; [reflexivity|discriminate]|]). constructor.
Qed.

Lemma transaction_of_nonnegative (wallet_address : string) (tx : RawTx) (row : Event) :
  well_formed_record tx ->
  transaction_of wallet_address tx = Some (inr row) ->
  (0 <= value_usd row)%Q.
Proof.
  intros [(amount & Hv & Hamount & _) (seconds & Ht & _)]. unfold transaction_of.
  case_bool_decide as Hin; [|discriminate].
  destruct (get_compound_v2_ctokens !! _) as [token_info|] eqn:Hreg; [|discriminate].
  rewrite Hv, Ht. intros H. injection H as <-. cbn [value_usd].
  destruct (registry_assets_positive _ _ Hreg) as [Hprice Hdecimals].
  apply Qmult_le_0_compat; [|apply Qlt_le_weak, Hprice].
  apply Qle_shift_div_l.
  - change 0%Q with (inject_Z 0). rewrite <- Zlt_Qlt. apply Z.pow_pos_nonneg; lia.
  - rewrite Qmult_0_l. change 0%Q with (inject_Z 0). rewrite <- Zle_Qle. exact Hamount.
Qed.

Lemma collect_transactions_nonnegative (wallet_address : string)
    (result : list RawTx) (rows : list Event) :
  Forall well_formed_record result ->
  collect_transactions wallet_address result = inr rows ->
  nonnegative_values rows.
Proof.
  intros Hwf. revert rows.
  induction Hwf as [|tx rest Htx _ IH]; intros rows H.
  - injection H as <-. constructor.
  - cbn [collect_transactions] in H.
    destruct (transaction_of wallet_address tx) as [[e|row]|] eqn:Hrow.
    + discriminate.
    + destruct (collect_transactions wallet_address rest) as [e|rows']; [discriminate|].
      injection H as <-. constructor.
      * eapply transaction_of_nonnegative; eassumption.
      * apply IH. reflexivity.
    + apply IH, H.
Qed.

Lemma fetch_nonnegative (remote : Ledger) (wallet_address api_key : string)
    (rows : list Event) :
  well_formed_response (remote wallet_address api_key) ->
  outcome (fetch_real_transactions remote wallet_address api_key) = inr rows ->
  nonnegative_values rows.
Proof.
  rewrite fetch_outcome. unfold well_formed_response.
  destruct (remote wallet_address api_key) as [reason|status result].
  - intros _ H. injection H as <-. constructor.
  - intros Hwf. case_bool_decide as Hs.
    + apply collect_transactions_nonnegative, Hwf.
    + intros H. injection H as <-. constructor.
Qed.

Lemma fetch_all_nonnegative (remote : Ledger) (api_key : string)
    (wallet_addresses : list string) (acc all_transactions : gmap string (list Event)) :
  Forall (fun address => well_formed_response (remote address api_key))
    wallet_addresses ->
  map_Forall (fun _ df => nonnegative_values df) acc ->
  outcome (fetch_all remote (tasks_of wallet_addresses api_key) acc)
  = inr all_transactions ->
  map_Forall (fun _ df => nonnegative_values df) all_transactions.
Proof.
  intros Hwf. revert acc.
  induction Hwf as [|address rest Haddr _ IH]; intros acc Hacc.
  - intros H. injection H as <-. exact Hacc.
  - cbn [tasks_of fmap list_fmap fetch_all]. unfold fetch_wallet_data_wrapper.
    destruct (fetch_well_formed remote address api_key Haddr) as [rows Hrows].
    rewrite !outcome_bind, Hrows. cbn [outcome mret Run_ret snd].
    rewrite outcome_bind. cbn [outcome print snd].
    apply IH. apply map_Forall_insert_2; [|exact Hacc].
    eapply fetch_nonnegative; eassumption.
Qed.

Lemma scored_frame_supplied_nonnegative (remote : Ledger) (now : Z)
    (wallet_addresses : list string) (api_key : string)
    (all_transactions : gmap string (list Event)) :
  Forall (fun address => well_formed_response (remote address api_key))
    wallet_addresses ->
  outcome (fetch_all remote (tasks_of wallet_addresses api_key) ∅)
  = inr all_transactions ->
  supplied_nonnegative (features_list now wallet_addresses all_transactions).
Proof.
  intros Hwf Hall. apply features_list_supplied_nonnegative.
  eapply fetch_all_nonnegative; [exact Hwf| |exact Hall].
  apply map_Forall_empty.
Qed.

Lemma scorer_wallet_ids (features_df : list FeatureRow) :
  (scorer features_df).*1 = wallet_id <$> features_df.
Proof.
  rewrite scorer_rows, <- list_fmap_compose. reflexivity.
Qed.

Lemma features_list_wallet_ids (now : Z) (wallet_addresses : list string)
    (all_transactions : gmap string (list Event)) :
  wallet_id <$> features_list now wallet_addresses all_transactions
  = wallet_addresses.
Proof.
  unfold features_list. rewrite <- list_fmap_compose. apply list_fmap_id.
Qed.

Lemma generate_with_key (remote : Ledger) (now : Z)
    (wallet_addresses : list string) (api_key : string) :
  api_key <> "" ->
  outcome (generate_risk_scores remote now wallet_addresses (Some api_key))
  = match outcome (fetch_all remote (tasks_of wallet_addresses api_key) ∅) with
    | inl e => inl e
    | inr all_transactions =>
        inr (scorer (features_list now wallet_addresses all_transactions))
    end.
Proof.
  intros Hkey. unfold generate_risk_scores.
  destruct wallet_addresses as [|address rest]; [reflexivity|].
  cbn [key_missing default]. rewrite bool_decide_eq_false_2 by exact Hkey.
  cbv zeta. rewrite outcome_bind.
  destruct (outcome (fetch_all _ _ _)); reflexivity.
Qed.

(** C9. With credentials present and integer fields in every response, the
    run builds exactly one feature row and returns exactly one score record
    per input wallet, wallets without events included, both in the order of
    the input list. *)
Theorem one_record_per_wallet (remote : Ledger) (now : Z)
    (wallet_addresses : list string) (api_key : string) :
  api_key <> "" ->
  Forall (fun address => well_formed_response (remote address api_key))
    wallet_addresses ->
  exists all_transactions final_df,
    outcome (fetch_all remote (tasks_of wallet_addresses api_key) ∅)
    = inr all_transactions
    /\ outcome (generate_risk_scores remote now wallet_addresses (Some api_key))
       = inr final_df
    /\ final_df = scorer (features_list now wallet_addresses all_transactions)
    /\ wallet_id <$> features_list now wallet_addresses all_transactions
       = wallet_addresses
    /\ final_df.*1 = wallet_addresses.
Proof.
  intros Hkey Hwf.
  destruct (fetch_all_well_formed remote api_key wallet_addresses ∅ Hwf)
    as [all_transactions Hall].
  exists all_transactions, (scorer (features_list now wallet_addresses all_transactions)).
  rewrite (generate_with_key _ _ _ _ Hkey), Hall.
  rewrite scorer_wallet_ids, features_list_wallet_ids. repeat split.
Qed.

(** C4, as the program has it. With the API key absent or empty the run
    queries the ledger for no wallet and returns the empty table; for a
    non-empty wallet list its only effect is the printed error line. The
    returned value is the one an empty wallet list yields, and it differs
    from what a run with a key returns for the same non-empty wallet list,
    failed fetches included. *)
Theorem missing_key_returns_empty (remote : Ledger) (now : Z)
    (wallet_addresses : list string) (api_key other_key : option string) :
  key_missing api_key = true ->
  let run := generate_risk_scores remote now wallet_addresses api_key in
  Forall (fun e => ~ is_fetch e) (trace run)
  /\ outcome run = inr []
  /\ (wallet_addresses <> [] -> trace run = [Print MsgApiKeyNotFound])
  /\ outcome run = outcome (generate_risk_scores remote now [] other_key)
  /\ (forall key,
        key <> "" -> wallet_addresses <> [] ->
        Forall (fun address => well_formed_response (remote address key))
          wallet_addresses ->
        outcome (generate_risk_scores remote now wallet_addresses (Some key))
        <> outcome run).
Proof.
  intros Hmissing. cbv zeta.
  assert (Hempty : outcome (generate_risk_scores remote now wallet_addresses api_key)
                   = inr []).
  { unfold generate_risk_scores. destruct wallet_addresses as [|address rest];
      [reflexivity|].
    rewrite Hmissing. reflexivity. }
  split; [|split; [exact Hempty|split; [|split]]].
  - unfold generate_risk_scores. destruct wallet_addresses as [|address rest];
      [constructor|].
    rewrite Hmissing. repeat constructor. intros [].
  - intros Hne. unfold generate_risk_scores.
    destruct wallet_addresses as [|address rest]; [contradiction|].
    rewrite Hmissing. reflexivity.
  - rewrite Hempty. reflexivity.
  - intros key Hkey Hne Hwf. rewrite Hempty, (generate_with_key _ _ _ _ Hkey).
    destruct (fetch_all_well_formed remote key wallet_addresses ∅ Hwf)
      as [all_transactions ->].
    intros Heq. injection Heq as Heq. apply Hne.
    rewrite <- (features_list_wallet_ids now wallet_addresses all_transactions),
      <- scorer_wallet_ids, Heq.
    reflexivity.
Qed.

(** ** Health factor proxy *)






(** ** Instances on the sample ledger *)

Lemma failed_fetch_is_empty_witness :
  request_failed (sample_ledger wallet_b "key")
  /\ api_non_success (sample_ledger wallet_c "key")
  /\ no_record_survives (sample_ledger wallet_d "key")
  /\ outcome (fetch_real_transactions sample_ledger wallet_b "key") = inr []
  /\ outcome (fetch_real_transactions sample_ledger wallet_c "key") = inr []
  /\ outcome (fetch_real_transactions sample_ledger wallet_d "key") = inr [].
Proof.
  assert (Hb : request_failed (sample_ledger wallet_b "key"))
    by (eexists; reflexivity).
  assert (Hc : api_non_success (sample_ledger wallet_c "key"))
    by (eexists _, _; split; [reflexivity|discriminate]).
  assert (Hd : no_record_survives (sample_ledger wallet_d "key"))
    by (eexists; split; [reflexivity|repeat constructor]).
  split; [exact Hb|]. split; [exact Hc|]. split; [exact Hd|]. split; [|split].
  - apply failed_fetch_is_empty. left. exact Hb.
  - apply failed_fetch_is_empty. right; left. exact Hc.
  - apply failed_fetch_is_empty. right; right. exact Hd.
Defined.

Lemma fetched_events_classified_witness :
  exists rows,
    outcome (fetch_real_transactions sample_ledger wallet_a "key") = inr rows
    /\ event_type <$> rows = [Mint; Redeem]
    /\ Forall2 (classified wallet_a)
         (retained_records (sample_ledger wallet_a "key")) rows.
Proof.
  eexists. split; [vm_compute; reflexivity|]. split; [reflexivity|].
  apply fetched_events_classified. vm_compute. reflexivity.
Defined.

Lemma one_record_per_wallet_witness :
  exists final_df,
    outcome (generate_risk_scores sample_ledger sample_now
               [wallet_a; wallet_b; wallet_c; wallet_d] (Some "key"))
    = inr final_df
    /\ final_df.*1 = [wallet_a; wallet_b; wallet_c; wallet_d].
Proof.
  destruct (one_record_per_wallet sample_ledger sample_now
              [wallet_a; wallet_b; wallet_c; wallet_d] "key")
    as (all_transactions & final_df & _ & Hrun & _ & _ & Hids).
  - discriminate.
  - repeat constructor; eexists; (split; [vm_compute; reflexivity|lia]).
  - exists final_df. split; assumption.
Defined.

Lemma missing_key_returns_empty_witness :
  key_missing (Some "") = true
  /\ generate_risk_scores sample_ledger sample_now [wallet_a; wallet_b] (Some "")
     = ([Print MsgApiKeyNotFound], inr []).
Proof.
  split; [reflexivity|].
  destruct (missing_key_returns_empty sample_ledger sample_now
              [wallet_a; wallet_b] (Some "") None eq_refl)
    as (_ & Hout & Htrace & _).
  specialize (Htrace ltac:(discriminate)).
  destruct (generate_risk_scores sample_ledger sample_now [wallet_a; wallet_b] (Some ""))
    as [t r].
  cbn [trace outcome fst snd] in Hout, Htrace. congruence.
Defined.

(** C4 fails as stated: without a key the caller receives the same value
    as for an empty wallet list, and with an empty wallet list the whole
    run, printed lines included, is the same with and without a key. *)
Lemma missing_key_same_as_empty_input :
  outcome (generate_risk_scores sample_ledger sample_now [wallet_a; wallet_b] None)
  = outcome (generate_risk_scores sample_ledger sample_now [] (Some "key"))
  /\ generate_risk_scores sample_ledger sample_now [] None
     = generate_risk_scores sample_ledger sample_now [] (Some "key").
Proof. split; reflexivity. Qed.

(** ** Instances on the sample frame *)




Lemma single_wallet_score_witness :
  supplied_nonnegative (take 1 sample_frame)
  /\ scorer (take 1 sample_frame) = [(wallet_a, 50)].
Proof.
  assert (H : supplied_nonnegative (take 1 sample_frame))
    by (repeat constructor; discriminate).
  split; [exact H|].
  destruct (single_wallet_score _ H) as (_ & _ & _ & Hscore). exact Hscore.
Defined.

(** * Further properties of the program *)

(** ** Reading the wallet list *)

Lemma series_unique_elem_of (values : list string) (x : string) :
  x ∈ series_unique values <-> x ∈ values.
Proof.
  induction values as [|v rest IH]; [reflexivity|].
  cbn [series_unique]. rewrite !elem_of_cons, list_elem_of_filter, IH.
  destruct (decide (x = v)) as [->|Hne]; tauto.
Qed.

Lemma series_unique_NoDup (values : list string) : NoDup (series_unique values).
Proof.
  induction values as [|v rest IH]; [constructor|].
  cbn [series_unique]. constructor.
  - rewrite list_elem_of_filter. intros [Hne _]. apply Hne. reflexivity.
  - apply NoDup_filter, IH.
Qed.

Lemma series_unique_sublist (values : list string) :
  sublist (series_unique values) values.
Proof.
  induction values as [|v rest IH]; [constructor|].
  cbn [series_unique]. apply sublist_skip.
  etrans; [apply sublist_filter|exact IH].
Qed.

Lemma filter_all {A} (P : A -> Prop) `{forall x, Decision (P x)} (l : list A) :
  Forall P l -> filter P l = l.
Proof.
  induction 1 as [|x l Hx _ IH]; [reflexivity|].
  rewrite filter_cons_True by exact Hx. f_equal. exact IH.
Qed.

Lemma series_unique_of_NoDup (values : list string) :
  NoDup values -> series_unique values = values.
Proof.
  induction 1 as [|v rest Hv _ IH]; [reflexivity|].
  cbn [series_unique]. rewrite IH. f_equal.
  apply filter_all, Forall_forall. intros x Hx ->. contradiction.
Qed.

Lemma series_dropna_elem_of (cells : list (option string)) (x : string) :
  x ∈ series_dropna cells <-> Some x ∈ cells.
Proof.
  unfold series_dropna. rewrite list_elem_of_omap. split.
  - intros (c & Hc & Hx). cbn in Hx. subst c. exact Hc.
  - intros Hx. exists (Some x). split; [exact Hx|reflexivity].
Qed.

(** X1. The wallet list read from a file that exists has no duplicates and
    no missing values: it holds exactly the non-missing cells of the wallet
    column, in the order of the column, and is the column itself when that
    has neither duplicates nor missing cells; nothing is printed. *)
Theorem wallet_addresses_of_frame (files : FileSystem) (file_path : string)
    (first_column : Column) (other_columns : list Column) :
  files file_path = CsvFrame first_column other_columns ->
  let cells := column_cells (wallet_column first_column other_columns) in
  let result := (get_wallet_addresses files file_path).2 in
  (get_wallet_addresses files file_path).1 = []
  /\ NoDup result
  /\ (forall w, w ∈ result <-> Some w ∈ cells)
  /\ sublist result (series_dropna cells)
  /\ (NoDup cells -> Forall is_Some cells -> Some <$> result = cells).
Proof.
  intros Hfile. cbv zeta. unfold get_wallet_addresses. rewrite Hfile. cbn [fst snd].
  split; [reflexivity|]. split; [apply series_unique_NoDup|].
  split; [|split].
  - intros w. rewrite series_unique_elem_of. apply series_dropna_elem_of.
  - apply series_unique_sublist.
  - intros Hnodup Hsome.
    set (cells := column_cells (wallet_column first_column other_columns)) in *.
    clearbody cells. clear Hfile.
    assert (Hdrop : Some <$> series_dropna cells = cells).
    { clear Hnodup. induction Hsome as [|c rest [x ->] _ IH]; [reflexivity|].
      unfold series_dropna in *. cbn [omap list_omap id]. cbn. f_equal. exact IH. }
    rewrite series_unique_of_NoDup; [exact Hdrop|].
    apply (NoDup_fmap_1 Some). rewrite Hdrop. exact Hnodup.
Qed.

Lemma wallet_addresses_of_frame_witness :
  sample_files "wallets.csv"
  = CsvFrame
      {| column_name := "label"; column_cells := [Some "x"; Some "y"; None; Some "z"] |}
      [ {| column_name := "address";
           column_cells := [Some wallet_a; Some wallet_b; None; Some wallet_a;
                            Some wallet_d] |} ]
  /\ (get_wallet_addresses sample_files "wallets.csv").2 = [wallet_a; wallet_b; wallet_d]
  /\ NoDup (get_wallet_addresses sample_files "wallets.csv").2.
Proof.
  split; [reflexivity|]. split; [reflexivity|].
  eapply (wallet_addresses_of_frame sample_files "wallets.csv"). reflexivity.
Defined.

(** ** The fetcher: requests and errors *)

Lemma fetch_trace_requests (remote : Ledger) (wallet_address api_key : string) :
  requests (trace (fetch_real_transactions remote wallet_address api_key))
  = [(wallet_address, api_key)].
Proof.
  unfold fetch_real_transactions, http_get, print, trace.
  cbn [mbind Run_bind mret Run_ret app].
  destruct (remote wallet_address api_key) as [reason|status result].
  - reflexivity.
  - case_bool_decide as Hs; [reflexivity|].
    destruct (collect_transactions wallet_address result) as [e|[|row rows]];
      reflexivity.
Qed.

Lemma fetch_trace_progress (remote : Ledger) (wallet_address api_key : string) :
  progress_lines (trace (fetch_real_transactions remote wallet_address api_key)) = [].
Proof.
  unfold fetch_real_transactions, http_get, print, trace.
  cbn [mbind Run_bind mret Run_ret app].
  destruct (remote wallet_address api_key) as [reason|status result].
  - reflexivity.
  - case_bool_decide as Hs; [reflexivity|].
    destruct (collect_transactions wallet_address result) as [e|[|row rows]];
      reflexivity.
Qed.

Lemma transaction_of_error (wallet_address : string) (tx : RawTx) (e : exn) :
  transaction_of wallet_address tx = Some (inl e) ->
  is_Some (registry_lookup tx) /\ malformed_record tx.
Proof.
  unfold transaction_of, registry_lookup, malformed_record.
  case_bool_decide as Hin; [|discriminate].
  apply in_ctoken_addresses in Hin. destruct Hin as [token_info Hreg].
  rewrite Hreg.
  destruct (py_int (tx_value tx)) as [value_raw|].
  - destruct (py_int (tx_timeStamp tx)) as [seconds|]; [discriminate|].
    intros H. injection H as <-. eauto.
  - intros H. injection H as <-. eauto.
Qed.

Lemma transaction_of_malformed (wallet_address : string) (tx : RawTx) :
  is_Some (registry_lookup tx) -> malformed_record tx ->
  exists e, transaction_of wallet_address tx = Some (inl e).
Proof.
  unfold transaction_of, registry_lookup, malformed_record.
  intros Hreg Hbad.
  rewrite bool_decide_eq_true_2 by (apply in_ctoken_addresses, Hreg).
  destruct Hreg as [token_info ->].
  destruct (py_int (tx_value tx)) as [value_raw|]; [|eauto].
  destruct Hbad as [Hbad|Hbad]; [discriminate|]. rewrite Hbad. eauto.
Qed.

Lemma collect_transactions_error (wallet_address : string) (result : list RawTx) :
  (exists e, collect_transactions wallet_address result = inl e)
  <-> Exists (fun tx => is_Some (registry_lookup tx) /\ malformed_record tx) result.
Proof.
  induction result as [|tx rest IH].
  - split; [intros [e H]; discriminate|intros H; inversion H].
  - cbn [collect_transactions]. rewrite Exists_cons, <- IH.
    destruct (transaction_of wallet_address tx) as [[e|row]|] eqn:Htx.
    + apply transaction_of_error in Htx as (Hreg & Hbad).
      split; [intros _; left; split; assumption|intros _; eauto].
    + split.
      * intros [e H]. right.
        destruct (collect_transactions wallet_address rest) as [e'|rows];
          [eauto|discriminate].
      * intros [[Hreg Hbad]|[e H]].
        -- destruct (transaction_of_malformed wallet_address _ Hreg Hbad) as [e He].
           rewrite He in Htx. discriminate Htx.
        -- rewrite H. eauto.
    + split; [intros H; right; exact H|].
      intros [[Hreg Hbad]|H]; [|exact H].
      destruct (transaction_of_malformed wallet_address _ Hreg Hbad) as [e He].
      rewrite He in Htx. discriminate Htx.
Qed.

Lemma fetch_raises_malformed (remote : Ledger) (wallet_address api_key : string) :
  (exists e, outcome (fetch_real_transactions remote wallet_address api_key) = inl e)
  <-> Exists malformed_record (retained_records (remote wallet_address api_key)).
Proof.
  rewrite fetch_outcome. unfold retained_records.
  destruct (remote wallet_address api_key) as [reason|status result].
  - split; [intros [e H]; discriminate|intros H; inversion H].
  - case_bool_decide as Hs.
    + rewrite collect_transactions_error, !Exists_exists.
      split.
      * intros (tx & Hin & Hreg & Hbad). exists tx. split; [|exact Hbad].
        apply list_elem_of_filter. split; assumption.
      * intros (tx & Hin & Hbad). apply list_elem_of_filter in Hin as [Hreg Hin].
        exists tx. repeat split; assumption.
    + split; [intros [e H]; discriminate|intros H; inversion H].
Qed.

Lemma digits_value_letter (acc : Z) (s : string) :
  has_letter s = true -> digits_value acc s = None.
Proof.
  revert acc. induction s as [|c r IH]; intros acc; [discriminate|].
  cbn [has_letter digits_value]. intros Hs.
  destruct (digit_of c) as [d|] eqn:Hd; [|reflexivity].
  apply IH. apply orb_true_iff in Hs as [Hc|Hr]; [|exact Hr].
  exfalso. unfold digit_of, is_letter in *. cbv zeta in *.
  destruct ((48 <=? Z.of_N (N_of_ascii c)) && (Z.of_N (N_of_ascii c) <=? 57)) eqn:Hdigit;
    [|discriminate].
  apply andb_true_iff in Hdigit as [Hlo Hhi].
  apply Z.leb_le in Hlo, Hhi.
  apply orb_true_iff in Hc as [Hc|Hc]; apply andb_true_iff in Hc as [Hlo' Hhi'];
    apply N.leb_le in Hlo', Hhi'; lia.
Qed.

Lemma unsigned_int_letter (s : string) : has_letter s = true -> unsigned_int s = None.
Proof.
  destruct s as [|c r]; [discriminate|]. apply digits_value_letter.
Qed.

Lemma py_int_letter (s : string) : has_letter s = true -> py_int s = None.
Proof.
  intros Hs. destruct s as [|c r]; [discriminate|].
  destruct (ascii_dec c "-"%char) as [->|Hminus].
  - cbn [py_int]. rewrite (unsigned_int_letter r Hs). reflexivity.
  - destruct (ascii_dec c "+"%char) as [->|Hplus].
    + cbn [py_int]. apply unsigned_int_letter, Hs.
    + transitivity (unsigned_int (String c r)); [|apply unsigned_int_letter, Hs].
      destruct c as [[] [] [] [] [] [] [] []]; try reflexivity; contradiction.
Qed.

Lemma unreadable_malformed (tx : RawTx) : unreadable_record tx -> malformed_record tx.
Proof. intros [H|H]; [left|right]; apply py_int_letter, H. Qed.

Lemma well_formed_not_malformed (tx : RawTx) :
  well_formed_record tx -> ~ malformed_record tx.
Proof.
  intros [(amount & Ha & _) (seconds & Hs & _)] [H|H]; congruence.
Qed.

Lemma fetch_unreadable (remote : Ledger) (wallet_address api_key : string) :
  unreadable_response remote api_key wallet_address ->
  ~ fetch_succeeds remote api_key wallet_address.
Proof.
  intros Hbad [rows Hrows].
  assert (Hraise : exists e,
             outcome (fetch_real_transactions remote wallet_address api_key) = inl e).
  { apply fetch_raises_malformed. eapply Exists_impl; [exact Hbad|].
    apply unreadable_malformed. }
  destruct Hraise as [e He]. congruence.
Qed.

(** X2. A fetch announces the wallet, then sends exactly one request, for
    that wallet and with the given key; it prints a failure line exactly
    when the request fails, and nothing more when the response reports a
    status other than success or when the fetch raises. There is no
    retry. *)
Theorem fetch_requests_once (remote : Ledger) (wallet_address api_key : string) :
  trace (fetch_real_transactions remote wallet_address api_key)
  = [Print (MsgFetching wallet_address); HttpGet wallet_address api_key]
    ++ match remote wallet_address api_key with
       | RequestException reason => [Print (MsgRequestFailed wallet_address reason)]
       | JsonBody _ _ => []
       end
  /\ requests (trace (fetch_real_transactions remote wallet_address api_key))
     = [(wallet_address, api_key)].
Proof.
  split; [|apply fetch_trace_requests].
  unfold fetch_real_transactions, http_get, print, trace.
  cbn [mbind Run_bind mret Run_ret app].
  destruct (remote wallet_address api_key) as [reason|status result].
  - reflexivity.
  - case_bool_decide as Hs; [reflexivity|].
    destruct (collect_transactions wallet_address result) as [e|[|row rows]];
      reflexivity.
Qed.

(** X3. A fetch returns when every record it retains carries a ledger
    amount and a block timestamp, whatever the records of tokens outside
    the registry hold; and it raises when the response reports success and
    a record it retains has a letter in its amount or in its timestamp. *)
Theorem fetch_returns_or_raises (remote : Ledger) (wallet_address api_key : string) :
  (Forall well_formed_record (retained_records (remote wallet_address api_key)) ->
   fetch_succeeds remote api_key wallet_address)
  /\ (unreadable_response remote api_key wallet_address ->
      exists e,
        outcome (fetch_real_transactions remote wallet_address api_key) = inl e).
Proof.
  split.
  - intros Hwf. unfold fetch_succeeds.
    destruct (outcome (fetch_real_transactions remote wallet_address api_key))
      as [e|rows] eqn:Hout; [|eauto].
    exfalso.
    assert (Hbad : Exists malformed_record
                     (retained_records (remote wallet_address api_key))).
    { apply fetch_raises_malformed. rewrite Hout. eauto. }
    apply Exists_exists in Hbad as (tx & Hin & Hbad).
    rewrite Forall_forall in Hwf.
    exact (well_formed_not_malformed tx (Hwf tx Hin) Hbad).
  - intros Hbad. apply fetch_raises_malformed.
    eapply Exists_impl; [exact Hbad|]. apply unreadable_malformed.
Qed.

Lemma well_formed_retained (response : Response) :
  well_formed_response response ->
  Forall well_formed_record (retained_records response).
Proof.
  destruct response as [reason|status result]; [constructor|].
  cbn [well_formed_response retained_records]. intros Hwf.
  case_bool_decide; [|constructor].
  apply Forall_forall. intros tx Hin. apply list_elem_of_filter in Hin as [_ Hin].
  rewrite Forall_forall in Hwf. apply Hwf, Hin.
Qed.

Lemma sample_ledger_well_formed (wallet_addresses : list string) :
  well_formed_responses sample_ledger "key" wallet_addresses.
Proof.
  apply Forall_forall. intros address _. unfold sample_ledger.
  repeat case_bool_decide;
    repeat constructor; eexists; (split; [vm_compute; reflexivity|lia]).
Qed.

Lemma fetch_returns_or_raises_witness :
  fetch_succeeds sample_ledger "key" wallet_a
  /\ exists e, outcome (fetch_real_transactions broken_ledger wallet_b "key") = inl e.
Proof.
  destruct (fetch_returns_or_raises sample_ledger wallet_a "key") as [Hreturns _].
  destruct (fetch_returns_or_raises broken_ledger wallet_b "key") as [_ Hraises].
  split.
  - apply Hreturns, well_formed_retained.
    exact (proj1 (Forall_forall _ _) (sample_ledger_well_formed [wallet_a]) wallet_a
             ltac:(left)).
  - apply Hraises. left. left. reflexivity.
Defined.

(** ** The batch run: requests, data and errors *)

Lemma requests_app (a b : list effect) : requests (a ++ b) = requests a ++ requests b.
Proof. apply omap_app. Qed.

Lemma progress_lines_app (a b : list effect) :
  progress_lines (a ++ b) = progress_lines a ++ progress_lines b.
Proof. apply omap_app. Qed.

Lemma progress_lines_cons_line (remote : Ledger) (api_key wallet_address : string)
    (effects : list effect) :
  progress_lines (Print (progress_line remote api_key wallet_address) :: effects)
  = progress_line remote api_key wallet_address :: progress_lines effects.
Proof.
  unfold progress_line. destruct (fetched_events remote api_key wallet_address);
    reflexivity.
Qed.

Lemma fetched_events_ok (remote : Ledger) (api_key wallet_address : string)
    (rows : list Event) :
  outcome (fetch_real_transactions remote wallet_address api_key) = inr rows ->
  fetched_events remote api_key wallet_address = rows.
Proof. unfold fetched_events. intros ->. reflexivity. Qed.

Lemma fetch_all_cons_ok (remote : Ledger) (api_key wallet_address : string)
    (rest : list string) (acc : gmap string (list Event)) (rows : list Event) :
  outcome (fetch_real_transactions remote wallet_address api_key) = inr rows ->
  fetch_all remote (tasks_of (wallet_address :: rest) api_key) acc
  = (trace (fetch_real_transactions remote wallet_address api_key)
     ++ Print (progress_line remote api_key wallet_address)
     :: trace (fetch_all remote (tasks_of rest api_key) (<[wallet_address := rows]> acc)),
     outcome (fetch_all remote (tasks_of rest api_key) (<[wallet_address := rows]> acc))).
Proof.
  intros Hrows. unfold progress_line. rewrite (fetched_events_ok _ _ _ _ Hrows).
  cbn [tasks_of fmap list_fmap fetch_all]. unfold fetch_wallet_data_wrapper.
  fold (tasks_of rest api_key).
  destruct (fetch_real_transactions remote wallet_address api_key) as [t [e|rows']];
    cbn [outcome snd] in Hrows; [discriminate|]. injection Hrows as ->.
  unfold mbind, Run_bind, mret, Run_ret, print, trace, outcome. cbn [fst snd].
  destruct (fetch_all remote (tasks_of rest api_key) (<[wallet_address:=rows]> acc))
    as [t' r'].
  cbn [fst snd]. rewrite app_nil_r. destruct rows; reflexivity.
Qed.

Lemma fetch_all_cons_raise (remote : Ledger) (api_key wallet_address : string)
    (rest : list string) (acc : gmap string (list Event)) (e : exn) :
  outcome (fetch_real_transactions remote wallet_address api_key) = inl e ->
  fetch_all remote (tasks_of (wallet_address :: rest) api_key) acc
  = (trace (fetch_real_transactions remote wallet_address api_key), inl e).
Proof.
  intros He. cbn [tasks_of fmap list_fmap fetch_all]. unfold fetch_wallet_data_wrapper.
  destruct (fetch_real_transactions remote wallet_address api_key) as [t [e'|rows]];
    cbn [outcome snd] in He; [|discriminate]. injection He as ->.
  reflexivity.
Qed.

Lemma fetch_all_requests_within (remote : Ledger) (api_key : string)
    (wallet_addresses : list string) (acc : gmap string (list Event)) :
  requests (trace (fetch_all remote (tasks_of wallet_addresses api_key) acc))
  ⊆ tasks_of wallet_addresses api_key.
Proof.
  revert acc. induction wallet_addresses as [|w rest IH]; intros acc; [reflexivity|].
  destruct (outcome (fetch_real_transactions remote w api_key)) as [e|rows] eqn:Hw.
  - rewrite (fetch_all_cons_raise _ _ _ _ _ _ Hw). cbn [trace fst].
    rewrite fetch_trace_requests. cbn [tasks_of fmap list_fmap].
    intros r Hr. apply list_elem_of_singleton in Hr as ->. left.
  - rewrite (fetch_all_cons_ok _ _ _ _ _ _ Hw). cbn [trace fst].
    rewrite requests_app, fetch_trace_requests.
    cbn [tasks_of fmap list_fmap app requests omap list_omap].
    fold (requests (trace (fetch_all remote (tasks_of rest api_key) (<[w:=rows]> acc)))).
    fold (tasks_of rest api_key).
    intros r Hr. apply elem_of_cons in Hr as [->|Hr]; [left|right].
    apply (IH _ _ Hr).
Qed.

Lemma fetch_all_success (remote : Ledger) (api_key : string)
    (wallet_addresses : list string) (acc : gmap string (list Event)) :
  Forall (fetch_succeeds remote api_key) wallet_addresses ->
  exists all_transactions,
    outcome (fetch_all remote (tasks_of wallet_addresses api_key) acc)
    = inr all_transactions
    /\ (forall address,
          all_transactions !! address
          = if decide (address ∈ wallet_addresses)
            then Some (fetched_events remote api_key address)
            else acc !! address)
    /\ requests (trace (fetch_all remote (tasks_of wallet_addresses api_key) acc))
       = tasks_of wallet_addresses api_key
    /\ progress_lines (trace (fetch_all remote (tasks_of wallet_addresses api_key) acc))
       = progress_line remote api_key <$> wallet_addresses.
Proof.
  intros Hok. revert acc.
  induction Hok as [|w rest [rows Hw] _ IH]; intros acc.
  - exists acc. repeat split.
  - destruct (IH (<[w := rows]> acc)) as (m & Hm & Hlookup & Hreq & Hlines).
    exists m. rewrite (fetch_all_cons_ok _ _ _ _ _ _ Hw). cbn [outcome trace fst snd].
    split; [exact Hm|]. split; [|split].
    + intros address. rewrite Hlookup.
      destruct (decide (address = w)) as [->|Hne].
      * rewrite (decide_True (P := w ∈ w :: rest)) by left.
        destruct (decide (w ∈ rest)); [reflexivity|].
        rewrite lookup_insert_eq, (fetched_events_ok _ _ _ _ Hw). reflexivity.
      * destruct (decide (address ∈ rest)) as [Hin|Hnin].
        -- rewrite decide_True by (right; exact Hin). reflexivity.
        -- rewrite decide_False by (rewrite elem_of_cons; tauto).
           apply lookup_insert_ne. congruence.
    + rewrite requests_app, fetch_trace_requests. cbn [app requests omap list_omap].
      fold (requests (trace (fetch_all remote (tasks_of rest api_key) (<[w:=rows]> acc)))).
      rewrite Hreq. reflexivity.
    + rewrite progress_lines_app, fetch_trace_progress.
      cbn [app fmap list_fmap]. rewrite progress_lines_cons_line, Hlines.
      reflexivity.
Qed.

Lemma fetch_all_failure (remote : Ledger) (api_key : string)
    (wallet_addresses : list string) (acc : gmap string (list Event)) :
  Exists (fun address => ~ fetch_succeeds remote api_key address) wallet_addresses ->
  exists e, outcome (fetch_all remote (tasks_of wallet_addresses api_key) acc) = inl e.
Proof.
  revert acc. induction wallet_addresses as [|w rest IH]; intros acc Hbad;
    [inversion Hbad|].
  destruct (outcome (fetch_real_transactions remote w api_key)) as [e|rows] eqn:Hw.
  - rewrite (fetch_all_cons_raise _ _ _ _ _ _ Hw). cbn [outcome snd]. eauto.
  - rewrite (fetch_all_cons_ok _ _ _ _ _ _ Hw). cbn [outcome snd].
    apply IH. apply Exists_cons in Hbad as [Hbad|Hbad]; [|exact Hbad].
    exfalso. apply Hbad. exists rows. exact Hw.
Qed.

Lemma well_formed_fetches (remote : Ledger) (api_key : string)
    (wallet_addresses : list string) :
  well_formed_responses remote api_key wallet_addresses ->
  Forall (fetch_succeeds remote api_key) wallet_addresses.
Proof.
  intros Hwf. eapply Forall_impl; [exact Hwf|].
  intros address Haddr. apply fetch_well_formed, Haddr.
Qed.

Lemma unreadable_fetches (remote : Ledger) (api_key : string)
    (wallet_addresses : list string) :
  Exists (unreadable_response remote api_key) wallet_addresses ->
  Exists (fun address => ~ fetch_succeeds remote api_key address) wallet_addresses.
Proof.
  intros Hbad. eapply Exists_impl; [exact Hbad|].
  intros address. apply fetch_unreadable.
Qed.

Lemma features_list_of_fetched (remote : Ledger) (now : Z) (api_key : string)
    (wallet_addresses : list string) (all_transactions : gmap string (list Event)) :
  (forall address,
     address ∈ wallet_addresses ->
     all_transactions !! address = Some (fetched_events remote api_key address)) ->
  features_list now wallet_addresses all_transactions
  = feature_row remote now api_key <$> wallet_addresses.
Proof.
  intros Hlookup. unfold features_list. apply list_fmap_ext.
  intros i address Hi. apply list_elem_of_lookup_2 in Hi.
  rewrite (Hlookup address Hi). reflexivity.
Qed.

Lemma generate_trace_with_key (remote : Ledger) (now : Z)
    (wallet_addresses : list string) (api_key : string) :
  api_key <> "" ->
  trace (generate_risk_scores remote now wallet_addresses (Some api_key))
  = trace (fetch_all remote (tasks_of wallet_addresses api_key) ∅).
Proof.
  intros Hkey. unfold generate_risk_scores.
  destruct wallet_addresses as [|address rest]; [reflexivity|].
  cbn [key_missing default]. rewrite bool_decide_eq_false_2 by exact Hkey.
  cbv zeta. rewrite trace_bind.
  destruct (outcome (fetch_all _ _ _)); [reflexivity|].
  cbn [trace mret Run_ret fst]. apply app_nil_r.
Qed.

Lemma fetch_succeeds_or_not (remote : Ledger) (api_key : string)
    (wallet_addresses : list string) :
  Forall (fetch_succeeds remote api_key) wallet_addresses
  \/ Exists (fun address => ~ fetch_succeeds remote api_key address) wallet_addresses.
Proof.
  induction wallet_addresses as [|w rest [IH|IH]].
  - left. constructor.
  - destruct (outcome (fetch_real_transactions remote w api_key)) as [e|rows] eqn:Hw.
    + right. left. intros [rows Hrows]. congruence.
    + left. constructor; [exists rows; exact Hw|exact IH].
  - right. right. exact IH.
Qed.

(** X4. A run with a key queries the ledger only for wallets of the list
    and only with that key. When no fetch raises, it sends one request per
    entry of the list, and the collecting loop prints one progress line per
    wallet, in the order of the list: the number of events fetched, or that
    nothing relevant was found. *)
Theorem run_requests_and_progress (remote : Ledger) (now : Z)
    (wallet_addresses : list string) (api_key : string) :
  api_key <> "" ->
  let run := generate_risk_scores remote now wallet_addresses (Some api_key) in
  requests (trace run) ⊆ tasks_of wallet_addresses api_key
  /\ (Forall (fetch_succeeds remote api_key) wallet_addresses ->
      requests (trace run) ≡ₚ tasks_of wallet_addresses api_key
      /\ progress_lines (trace run) = progress_line remote api_key <$> wallet_addresses).
Proof.
  intros Hkey. cbv zeta. rewrite (generate_trace_with_key _ _ _ _ Hkey).
  split; [apply fetch_all_requests_within|].
  intros Hok.
  destruct (fetch_all_success remote api_key wallet_addresses ∅ Hok)
    as (m & _ & _ & Hreq & Hlines).
  rewrite Hreq, Hlines. split; reflexivity.
Qed.

Lemma run_requests_and_progress_witness :
  "key" <> ""
  /\ Forall (fetch_succeeds sample_ledger "key") [wallet_a; wallet_b; wallet_c]
  /\ progress_lines
       (trace (generate_risk_scores sample_ledger sample_now
                 [wallet_a; wallet_b; wallet_c] (Some "key")))
     = [MsgProcessed 2 wallet_a; MsgNoRelevant wallet_b; MsgNoRelevant wallet_c].
Proof.
  assert (Hkey : "key" <> "") by discriminate.
  assert (Hok : Forall (fetch_succeeds sample_ledger "key") [wallet_a; wallet_b; wallet_c])
    by (repeat constructor; eexists; vm_compute; reflexivity).
  split; [exact Hkey|]. split; [exact Hok|].
  destruct (run_requests_and_progress sample_ledger sample_now
              [wallet_a; wallet_b; wallet_c] "key" Hkey) as [_ H].
  destruct (H Hok) as [_ ->]. vm_compute. reflexivity.
Defined.

Lemma generate_scores_fetched (remote : Ledger) (now : Z)
    (wallet_addresses : list string) (api_key : string) :
  api_key <> "" ->
  Forall (fetch_succeeds remote api_key) wallet_addresses ->
  outcome (generate_risk_scores remote now wallet_addresses (Some api_key))
  = inr (scorer (feature_row remote now api_key <$> wallet_addresses)).
Proof.
  intros Hkey Hok.
  destruct (fetch_all_success remote api_key wallet_addresses ∅ Hok)
    as (m & Hm & Hlookup & _ & _).
  rewrite (generate_with_key _ _ _ _ Hkey), Hm. do 2 f_equal.
  apply features_list_of_fetched. intros address Hin.
  rewrite Hlookup, decide_True by exact Hin. reflexivity.
Qed.

(** X5. When the responses of all wallets are well formed, the frame a
    run with a key scores has one row per wallet, built from the events
    fetched for that wallet alone, with a non-negative supplied total:
    every wallet of the list is a key of the transactions map, so the
    default of the lookup is never used. *)
Theorem run_scores_fetched_features (remote : Ledger) (now : Z)
    (wallet_addresses : list string) (api_key : string) :
  api_key <> "" ->
  well_formed_responses remote api_key wallet_addresses ->
  (exists all_transactions,
     outcome (fetch_all remote (tasks_of wallet_addresses api_key) ∅)
     = inr all_transactions
     /\ forall address,
          all_transactions !! address
          = if decide (address ∈ wallet_addresses)
            then Some (fetched_events remote api_key address)
            else None)
  /\ supplied_nonnegative (feature_row remote now api_key <$> wallet_addresses)
  /\ outcome (generate_risk_scores remote now wallet_addresses (Some api_key))
     = inr (scorer (feature_row remote now api_key <$> wallet_addresses)).
Proof.
  intros Hkey Hwf. pose proof (well_formed_fetches _ _ _ Hwf) as Hok.
  destruct (fetch_all_success remote api_key wallet_addresses ∅ Hok)
    as (m & Hm & Hlookup & _ & _).
  split; [|split].
  - exists m. split; [exact Hm|]. intros address. rewrite Hlookup.
    destruct (decide (address ∈ wallet_addresses)); [reflexivity|apply lookup_empty].
  - rewrite <- (features_list_of_fetched remote now api_key wallet_addresses m).
    + eapply scored_frame_supplied_nonnegative; [exact Hwf|exact Hm].
    + intros address Hin. rewrite Hlookup, decide_True by exact Hin. reflexivity.
  - apply generate_scores_fetched; assumption.
Qed.

Lemma run_scores_fetched_features_witness :
  "key" <> ""
  /\ well_formed_responses sample_ledger "key" [wallet_a; wallet_b]
  /\ outcome (generate_risk_scores sample_ledger sample_now [wallet_a; wallet_b]
                (Some "key"))
     = inr (scorer (feature_row sample_ledger sample_now "key" <$> [wallet_a; wallet_b])).
Proof.
  assert (Hkey : "key" <> "") by discriminate.
  pose proof (sample_ledger_well_formed [wallet_a; wallet_b]) as Hwf.
  split; [exact Hkey|]. split; [exact Hwf|].
  apply (run_scores_fetched_features sample_ledger sample_now [wallet_a; wallet_b] "key"
           Hkey Hwf).
Defined.

(** X6. One unreadable record is enough to lose the whole batch: when the
    response of some wallet of the list holds a record of a registry token
    with a letter in its amount or in its timestamp, a run with a key
    raises and returns no score for any wallet. *)
Theorem run_raises_with_a_fetch (remote : Ledger) (now : Z)
    (wallet_addresses : list string) (api_key : string) :
  api_key <> "" ->
  Exists (unreadable_response remote api_key) wallet_addresses ->
  exists e,
    outcome (generate_risk_scores remote now wallet_addresses (Some api_key)) = inl e.
Proof.
  intros Hkey Hbad. rewrite (generate_with_key _ _ _ _ Hkey).
  destruct (fetch_all_failure remote api_key wallet_addresses ∅
              (unreadable_fetches _ _ _ Hbad)) as [e He].
  exists e. rewrite He. reflexivity.
Qed.

Lemma run_raises_with_a_fetch_witness :
  "key" <> ""
  /\ unreadable_response broken_ledger "key" wallet_b
  /\ exists e,
       outcome (generate_risk_scores broken_ledger sample_now
                  [wallet_a; wallet_b; wallet_c] (Some "key"))
       = inl e.
Proof.
  assert (Hkey : "key" <> "") by discriminate.
  assert (Hbad : unreadable_response broken_ledger "key" wallet_b)
    by (left; left; reflexivity).
  split; [exact Hkey|]. split; [exact Hbad|].
  apply (run_raises_with_a_fetch broken_ledger sample_now
           [wallet_a; wallet_b; wallet_c] "key" Hkey).
  right. left. exact Hbad.
Defined.

(** ** The entry point *)

Lemma ledger_requests_app (a b : list io_effect) :
  ledger_requests (a ++ b) = ledger_requests a ++ ledger_requests b.
Proof. unfold ledger_requests. rewrite omap_app. apply requests_app. Qed.

Lemma files_written_app (a b : list io_effect) :
  files_written (a ++ b) = files_written a ++ files_written b.
Proof. apply omap_app. Qed.

Lemma ledger_requests_pipeline (effects : list effect) :
  ledger_requests (Pipeline <$> effects) = requests effects.
Proof.
  unfold ledger_requests. f_equal.
  induction effects as [|e rest IH]; [reflexivity|].
  cbn [fmap list_fmap omap list_omap]. f_equal. exact IH.
Qed.

Lemma files_written_pipeline (effects : list effect) :
  files_written (Pipeline <$> effects) = [].
Proof. induction effects as [|e rest IH]; [reflexivity|exact IH]. Qed.

Lemma from_file_effects (files : FileSystem) (remote : Ledger) (now : Z)
    (wallets_file : string) (api_key : option string) :
  let run := generate_risk_scores remote now
               (get_wallet_addresses files wallets_file).2 api_key in
  ledger_requests (generate_risk_scores_from_file files remote now wallets_file api_key).1
  = requests (trace run)
  /\ files_written (generate_risk_scores_from_file files remote now wallets_file api_key).1
     = []
  /\ (generate_risk_scores_from_file files remote now wallets_file api_key).2
     = outcome run.
Proof.
  cbv zeta. unfold generate_risk_scores_from_file, get_wallet_addresses.
  destruct (files wallets_file) as [|first others]; cbn [fst snd];
    rewrite ledger_requests_app, files_written_app, ledger_requests_pipeline,
      files_written_pipeline; repeat split.
Qed.

Lemma main_effects (environ : gmap string string) (files : FileSystem)
    (remote : Ledger) (now : Z) (start_time end_time : Q) :
  let result := generate_risk_scores_from_file files remote now INPUT_CSV_PATH
                  (os_getenv environ "ETHERSCAN_API_KEY") in
  ledger_requests (main environ files remote now start_time end_time).1
  = ledger_requests result.1
  /\ files_written (main environ files remote now start_time end_time).1
     = match result.2 with
       | inr (row :: rows) => [(OUTPUT_CSV_PATH, row :: rows)]
       | _ => []
       end
  /\ (main environ files remote now start_time end_time).2
     = match result.2 with
       | inl e => inl e
       | inr _ => inr tt
       end.
Proof.
  cbv zeta. unfold main.
  pose proof (from_file_effects files remote now INPUT_CSV_PATH
                (os_getenv environ "ETHERSCAN_API_KEY")) as (_ & Hfiles & _).
  destruct (generate_risk_scores_from_file files remote now INPUT_CSV_PATH
              (os_getenv environ "ETHERSCAN_API_KEY")) as [effects [e|[|row rows]]];
    cbn [fst snd] in *.
  - repeat split. exact Hfiles.
  - repeat split. exact Hfiles.
  - rewrite ledger_requests_app, files_written_app, Hfiles.
    split; [apply app_nil_r|]. split; reflexivity.
Qed.

(** X7. The entry point has nothing to do when the wallets file does not
    exist, when the file is parsed and its wallet column holds no value, or
    when the file is parsed and [ETHERSCAN_API_KEY] is unset or empty: it
    then sends no request to the ledger, writes no file and returns
    normally. *)
Theorem main_without_input_or_key (environ : gmap string string)
    (files : FileSystem) (remote : Ledger) (now : Z) (start_time end_time : Q) :
  files INPUT_CSV_PATH = CsvFileNotFound
  \/ (exists first_column other_columns,
        files INPUT_CSV_PATH = CsvFrame first_column other_columns
        /\ (series_dropna (column_cells (wallet_column first_column other_columns)) = []
            \/ key_missing (environ !! "ETHERSCAN_API_KEY") = true)) ->
  let run := main environ files remote now start_time end_time in
  ledger_requests run.1 = [] /\ files_written run.1 = [] /\ run.2 = inr tt.
Proof.
  intros Hcase. cbv zeta.
  destruct (main_effects environ files remote now start_time end_time)
    as (-> & -> & ->).
  destruct (from_file_effects files remote now INPUT_CSV_PATH
              (os_getenv environ "ETHERSCAN_API_KEY")) as (-> & _ & ->).
  unfold os_getenv.
  assert (Hrun : generate_risk_scores remote now
                   (get_wallet_addresses files INPUT_CSV_PATH).2
                   (environ !! "ETHERSCAN_API_KEY") = ([], inr [])
                 \/ generate_risk_scores remote now
                      (get_wallet_addresses files INPUT_CSV_PATH).2
                      (environ !! "ETHERSCAN_API_KEY")
                    = ([Print MsgApiKeyNotFound], inr [])).
  { destruct Hcase as [Hfile|(first_column & other_columns & Hfile & [Hnone|Hkey])].
    - left. unfold get_wallet_addresses. rewrite Hfile. reflexivity.
    - left. unfold get_wallet_addresses. rewrite Hfile. cbn [snd].
      rewrite Hnone. reflexivity.
    - unfold generate_risk_scores.
      destruct ((get_wallet_addresses files INPUT_CSV_PATH).2); [left; reflexivity|].
      right. rewrite Hkey. reflexivity. }
  destruct Hrun as [->| ->]; repeat split.
Qed.

Lemma main_without_input_or_key_witness :
  key_missing ((∅ : gmap string string) !! "ETHERSCAN_API_KEY") = true
  /\ files_written (main ∅ sample_files sample_ledger sample_now 0 1).1 = []
  /\ ledger_requests (main ∅ sample_files sample_ledger sample_now 0 1).1 = [].
Proof.
  split; [reflexivity|].
  destruct (main_without_input_or_key ∅ sample_files sample_ledger sample_now 0 1)
    as (Hreq & Hfiles & _).
  - right. eexists _, _. split; [reflexivity|]. right. reflexivity.
  - split; assumption.
Defined.

(** X8. With the wallets file parsed, a key in the environment and well
    formed responses for all wallets, the entry point writes exactly one
    file, [wallet_risk_scores.csv], when the wallet list is not empty: it
    holds one score per distinct wallet of the wallet column, in the order
    of their first appearance, and the ledger is queried for these wallets.
    The success line then reports 104 wallets, whatever their number. *)
Theorem main_writes_scores (environ : gmap string string) (files : FileSystem)
    (remote : Ledger) (now : Z) (start_time end_time : Q) (api_key : string)
    (first_column : Column) (other_columns : list Column) :
  files INPUT_CSV_PATH = CsvFrame first_column other_columns ->
  environ !! "ETHERSCAN_API_KEY" = Some api_key ->
  api_key <> "" ->
  let wallet_addresses :=
    series_unique
      (series_dropna (column_cells (wallet_column first_column other_columns))) in
  wallet_addresses <> [] ->
  well_formed_responses remote api_key wallet_addresses ->
  let run := main environ files remote now start_time end_time in
  exists rows,
    files_written run.1 = [(OUTPUT_CSV_PATH, rows)]
    /\ rows = scorer (feature_row remote now api_key <$> wallet_addresses)
    /\ rows.*1 = wallet_addresses
    /\ ledger_requests run.1 ≡ₚ tasks_of wallet_addresses api_key
    /\ PrintSuccess 104 OUTPUT_CSV_PATH ∈ run.1
    /\ run.2 = inr tt.
Proof.
  intros Hfile Henv Hkey wallet_addresses Hne Hwf. cbv zeta.
  pose proof (well_formed_fetches _ _ _ Hwf) as Hok.
  assert (Hlist : (get_wallet_addresses files INPUT_CSV_PATH).2 = wallet_addresses).
  { unfold get_wallet_addresses. rewrite Hfile. reflexivity. }
  exists (scorer (feature_row remote now api_key <$> wallet_addresses)).
  destruct (main_effects environ files remote now start_time end_time)
    as (Hreq & Hfiles & Hout).
  destruct (from_file_effects files remote now INPUT_CSV_PATH
              (os_getenv environ "ETHERSCAN_API_KEY")) as (Hreq' & _ & Hout').
  unfold os_getenv in *. rewrite Henv in *. rewrite Hlist in Hreq', Hout'.
  pose proof (generate_scores_fetched remote now wallet_addresses api_key Hkey Hok)
    as Hrun.
  rewrite Hrun in Hout'.
  assert (Hids : (scorer (feature_row remote now api_key <$> wallet_addresses)).*1
                 = wallet_addresses).
  { rewrite scorer_wallet_ids, <- list_fmap_compose. apply list_fmap_id. }
  assert (Hrows : exists row rows,
             scorer (feature_row remote now api_key <$> wallet_addresses) = row :: rows).
  { destruct (scorer (feature_row remote now api_key <$> wallet_addresses))
      as [|row rows]; [|eauto]. symmetry in Hids. contradiction. }
  destruct Hrows as (row & rows & Hrows).
  rewrite Hout' in Hout. rewrite Hout', Hrows in Hfiles.
  rewrite Hfiles, Hout, Hreq, Hreq', <- Hrows.
  split; [reflexivity|]. split; [reflexivity|]. split; [exact Hids|].
  split; [|split; [|reflexivity]].
  - rewrite (generate_trace_with_key _ _ _ _ Hkey).
    destruct (fetch_all_success remote api_key wallet_addresses ∅ Hok)
      as (m & _ & _ & -> & _). reflexivity.
  - unfold main, os_getenv. rewrite Henv.
    destruct (generate_risk_scores_from_file files remote now INPUT_CSV_PATH
                (Some api_key)) as [effects result].
    cbn [snd] in Hout'. rewrite Hout', Hrows. cbn [fst].
    apply elem_of_app. right. right. left.
Qed.

Lemma main_writes_scores_witness :
  exists rows,
    files_written
      (main {["ETHERSCAN_API_KEY" := "key"]} sample_files sample_ledger sample_now 0 1).1
    = [("wallet_risk_scores.csv", rows)]
    /\ rows.*1 = [wallet_a; wallet_b; wallet_d].
Proof.
  destruct (main_writes_scores {["ETHERSCAN_API_KEY" := "key"]} sample_files
              sample_ledger sample_now 0 1 "key"
              {| column_name := "label";
                 column_cells := [Some "x"; Some "y"; None; Some "z"] |}
              [ {| column_name := "address";
                   column_cells := [Some wallet_a; Some wallet_b; None; Some wallet_a;
                                    Some wallet_d] |} ])
    as (rows & Hfiles & _ & Hids & _).
  - reflexivity.
  - reflexivity.
  - discriminate.
  - discriminate.
  - apply sample_ledger_well_formed.
  - exists rows. split; [exact Hfiles|exact Hids].
Defined.

(** X9. With the wallets file parsed and a key in the environment, one
    unreadable record makes the entry point raise without writing a file:
    it is enough that the response of some wallet of the list holds a
    record of a registry token with a letter in its amount or in its
    timestamp. *)
Theorem main_raises_with_a_fetch (environ : gmap string string) (files : FileSystem)
    (remote : Ledger) (now : Z) (start_time end_time : Q) (api_key : string)
    (first_column : Column) (other_columns : list Column) :
  files INPUT_CSV_PATH = CsvFrame first_column other_columns ->
  environ !! "ETHERSCAN_API_KEY" = Some api_key ->
  api_key <> "" ->
  Exists (unreadable_response remote api_key)
    (series_unique
       (series_dropna (column_cells (wallet_column first_column other_columns)))) ->
  let run := main environ files remote now start_time end_time in
  (exists e, run.2 = inl e) /\ files_written run.1 = [].
Proof.
  intros Hfile Henv Hkey Hbad. cbv zeta.
  destruct (main_effects environ files remote now start_time end_time)
    as (_ & -> & ->).
  destruct (from_file_effects files remote now INPUT_CSV_PATH
              (os_getenv environ "ETHERSCAN_API_KEY")) as (_ & _ & ->).
  unfold os_getenv. rewrite Henv.
  assert (Hlist : (get_wallet_addresses files INPUT_CSV_PATH).2
                  = series_unique
                      (series_dropna
                         (column_cells (wallet_column first_column other_columns)))).
  { unfold get_wallet_addresses. rewrite Hfile. reflexivity. }
  rewrite Hlist, (generate_with_key _ _ _ _ Hkey).
  destruct (fetch_all_failure remote api_key _ ∅ (unreadable_fetches _ _ _ Hbad))
    as [e He].
  rewrite He. split; [exists e|]; reflexivity.
Qed.

Lemma main_raises_with_a_fetch_witness :
  unreadable_response broken_ledger "key" wallet_b
  /\ exists e,
       (main {["ETHERSCAN_API_KEY" := "key"]} sample_files broken_ledger sample_now 0 1).2
       = inl e.
Proof.
  assert (Hbad : unreadable_response broken_ledger "key" wallet_b)
    by (left; left; reflexivity).
  split; [exact Hbad|].
  destruct (main_raises_with_a_fetch {["ETHERSCAN_API_KEY" := "key"]} sample_files
              broken_ledger sample_now 0 1 "key"
              {| column_name := "label";
                 column_cells := [Some "x"; Some "y"; None; Some "z"] |}
              [ {| column_name := "address";
                   column_cells := [Some wallet_a; Some wallet_b; None; Some wallet_a;
                                    Some wallet_d] |} ])
    as [Hraises _].
  - reflexivity.
  - reflexivity.
  - discriminate.
  - right. left. exact Hbad.
  - exact Hraises.
Defined.

(** ** The registry and the fetched events *)

Lemma registry_keys_lower :
  map_Forall (fun key _ => lower key = key) get_compound_v2_ctokens.
Proof.
  apply map_Forall_to_list. vm_compute. repeat (constructor; [reflexivity|]).
  constructor.
Qed.

(** X10. The registry is looked up without regard to letter case: its keys
    are stored in lower case, so a record whose contract address equals a
    key up to the case of its letters is retained with the asset of that
    key, and a retained record always has such a key. *)
Theorem registry_lookup_ignores_case (tx : RawTx) (asset : Asset) :
  registry_lookup tx = Some asset
  <-> exists key,
        get_compound_v2_ctokens !! key = Some asset
        /\ equal_ignoring_case (tx_contractAddress tx) key.
Proof.
  unfold registry_lookup. split.
  - intros Hreg. exists (lower (tx_contractAddress tx)). split; [exact Hreg|].
    apply lower_equal_ignoring_case.
    symmetry. apply (registry_keys_lower _ _ Hreg).
  - intros (key & Hkey & Hcase). apply lower_equal_ignoring_case in Hcase.
    rewrite Hcase, (registry_keys_lower _ _ Hkey). exact Hkey.
Qed.

Lemma collect_transactions_filter (wallet_address : string) (result : list RawTx) :
  collect_transactions wallet_address
    (filter (fun tx => is_Some (registry_lookup tx)) result)
  = collect_transactions wallet_address result.
Proof.
  induction result as [|tx rest IH]; [reflexivity|].
  destruct (registry_lookup tx) as [asset|] eqn:Hreg.
  - rewrite filter_cons_True by (rewrite Hreg; eauto).
    cbn [collect_transactions]. rewrite IH. reflexivity.
  - rewrite filter_cons_False by (rewrite Hreg; apply is_Some_None).
    cbn [collect_transactions]. rewrite (transaction_of_skipped _ _ Hreg). exact IH.
Qed.

Lemma collect_transactions_app (wallet_address : string) (a b : list RawTx) :
  collect_transactions wallet_address (a ++ b)
  = match collect_transactions wallet_address a with
    | inl e => inl e
    | inr rows =>
        match collect_transactions wallet_address b with
        | inl e => inl e
        | inr rows' => inr (rows ++ rows')
        end
    end.
Proof.
  induction a as [|tx rest IH].
  - cbn [app collect_transactions].
    destruct (collect_transactions wallet_address b); reflexivity.
  - cbn [app collect_transactions]. rewrite IH.
    destruct (transaction_of wallet_address tx) as [[e|row]|]; [reflexivity| |reflexivity].
    destruct (collect_transactions wallet_address rest) as [e|rows]; [reflexivity|].
    destruct (collect_transactions wallet_address b); reflexivity.
Qed.

(** X11. Records of tokens outside the registry have no effect on a fetch:
    its outcome is the one it has on the response with those records
    removed, whatever their fields hold; and the events of a response are
    those of its first part followed by those of the rest. *)
Theorem foreign_records_ignored (remote : Ledger) (wallet_address api_key : string) :
  outcome (fetch_real_transactions
             (fun address key => without_foreign_records (remote address key))
             wallet_address api_key)
  = outcome (fetch_real_transactions remote wallet_address api_key)
  /\ forall status first rest rows rows',
       remote wallet_address api_key = JsonBody status (first ++ rest) ->
       collect_transactions wallet_address first = inr rows ->
       collect_transactions wallet_address rest = inr rows' ->
       fetched_events remote api_key wallet_address
       = if bool_decide (status = "1") then rows ++ rows' else [].
Proof.
  split.
  - rewrite !fetch_outcome. unfold without_foreign_records.
    destruct (remote wallet_address api_key) as [reason|status result];
      [reflexivity|].
    case_bool_decide; [apply collect_transactions_filter|reflexivity].
  - intros status first rest rows rows' Hresp Hfirst Hrest.
    unfold fetched_events. rewrite fetch_outcome, Hresp.
    case_bool_decide; [|reflexivity].
    rewrite collect_transactions_app, Hfirst, Hrest. reflexivity.
Qed.

Lemma transaction_of_lower (wallet_address other : string) (tx : RawTx) :
  lower wallet_address = lower other ->
  transaction_of wallet_address tx = transaction_of other tx.
Proof. intros H. unfold transaction_of. rewrite H. reflexivity. Qed.

Lemma collect_transactions_lower (wallet_address other : string) (result : list RawTx) :
  lower wallet_address = lower other ->
  collect_transactions wallet_address result = collect_transactions other result.
Proof.
  intros H. induction result as [|tx rest IH]; [reflexivity|].
  cbn [collect_transactions]. rewrite (transaction_of_lower _ _ tx H), IH. reflexivity.
Qed.

(** X12. The events fetched for a wallet do not depend on the letter case
    in which its address is written: two spellings that differ only in case
    and get the same response give the same outcome. *)
Theorem fetch_ignores_wallet_case (remote : Ledger)
    (wallet_address other api_key other_key : string) :
  equal_ignoring_case wallet_address other ->
  remote wallet_address api_key = remote other other_key ->
  outcome (fetch_real_transactions remote wallet_address api_key)
  = outcome (fetch_real_transactions remote other other_key).
Proof.
  intros Hcase Hresp. apply lower_equal_ignoring_case in Hcase.
  rewrite !fetch_outcome, Hresp.
  destruct (remote other other_key) as [reason|status result]; [reflexivity|].
  case_bool_decide; [|reflexivity].
  apply collect_transactions_lower, Hcase.
Qed.

Lemma fetch_ignores_wallet_case_witness :
  equal_ignoring_case "0xAAAA00000000000000000000000000000000AAAA" wallet_a
  /\ outcome (fetch_real_transactions (fun _ _ => JsonBody "1" sample_records)
                "0xAAAA00000000000000000000000000000000AAAA" "key")
     = outcome (fetch_real_transactions (fun _ _ => JsonBody "1" sample_records)
                  wallet_a "key").
Proof.
  assert (H : equal_ignoring_case "0xAAAA00000000000000000000000000000000AAAA" wallet_a)
    by (apply lower_equal_ignoring_case; reflexivity).
  split; [exact H|].
  apply (fetch_ignores_wallet_case (fun _ _ => JsonBody "1" sample_records)
           "0xAAAA00000000000000000000000000000000AAAA" wallet_a "key" "key" H).
  reflexivity.
Defined.

(** ** Features of a wallet *)

Section FeatureFacts.
Local Open Scope Q_scope.



End FeatureFacts.

Lemma series_min_lower_bound (first : Z) (others : list Z) (x : Z) :
  x ∈ first :: others -> series_min first others <= x.
Proof.
  unfold series_min. induction others as [|y others IH]; cbn [foldr].
  - intros Hx. apply list_elem_of_singleton in Hx as ->. lia.
  - rewrite !elem_of_cons. intros [->|[->|Hx]].
    + specialize (IH ltac:(left)). lia.
    + lia.
    + specialize (IH ltac:(right; exact Hx)). lia.
Qed.

Lemma series_min_attained (first : Z) (others : list Z) :
  series_min first others ∈ first :: others.
Proof.
  unfold series_min. induction others as [|y others IH]; cbn [foldr]; [left|].
  destruct (Z.min_spec y (foldr Z.min first others)) as [[_ ->]|[_ ->]].
  - right. left.
  - apply elem_of_cons in IH as [->|IH]; [left|right; right; exact IH].
Qed.

Lemma series_min_permutation (first first' : Z) (others others' : list Z) :
  first :: others ≡ₚ first' :: others' ->
  series_min first others = series_min first' others'.
Proof.
  intros Hperm. apply Z.le_antisymm.
  - apply series_min_lower_bound. rewrite Hperm. apply series_min_attained.
  - apply series_min_lower_bound. rewrite <- Hperm. apply series_min_attained.
Qed.

Lemma nunique_permutation (a b : list string) :
  a ≡ₚ b -> length (remove_dups a) = length (remove_dups b).
Proof.
  intros Hperm. apply Permutation_length, NoDup_Permutation.
  - apply NoDup_remove_dups.
  - apply NoDup_remove_dups.
  - intros x. rewrite !elem_of_remove_dups, Hperm. reflexivity.
Qed.

(** X13. The counts and the age of a wallet do not depend on the order of
    its events: two event sequences that are rearrangements of each other
    give the same number of distinct assets, the same age and the same
    liquidation features. *)
Theorem counts_and_age_ignore_event_order (now : Z) (df df' : list Event) :
  df ≡ₚ df' ->
  same_counts_and_age (calculate_features now df) (calculate_features now df').
Proof.
  intros Hperm. unfold same_counts_and_age.
  destruct df as [|first others], df' as [|first' others'].
  - repeat split; reflexivity.
  - apply Permutation_nil_l in Hperm. discriminate.
  - apply Permutation_nil_r in Hperm. discriminate.
  - cbn [calculate_features liquidation_count total_liquidated_usd
         distinct_assets_borrowed wallet_age_days].
    split; [reflexivity|]. split; [reflexivity|]. split.
    + f_equal. apply nunique_permutation. rewrite Hperm. reflexivity.
    + f_equal. apply (series_min_permutation (timestamp first) (timestamp first')).
      change (timestamp <$> first :: others ≡ₚ timestamp <$> first' :: others').
      rewrite Hperm. reflexivity.
Qed.

Lemma counts_and_age_ignore_event_order_witness :
  sample_events ≡ₚ reverse sample_events
  /\ wallet_age_days (calculate_features sample_now (reverse sample_events)) = 10
  /\ distinct_assets_borrowed (calculate_features sample_now (reverse sample_events))
     = 2.
Proof.
  assert (H : sample_events ≡ₚ reverse sample_events)
    by (symmetry; apply reverse_Permutation).
  split; [exact H|].
  destruct (counts_and_age_ignore_event_order sample_now sample_events
              (reverse sample_events) H) as (_ & _ & <- & <-).
  split; reflexivity.
Defined.


Lemma nunique_bounds (symbols : list string) :
  (length (remove_dups symbols) <= length symbols)%nat
  /\ (symbols <> [] -> (1 <= length (remove_dups symbols))%nat).
Proof.
  split.
  - apply submseteq_length, NoDup_submseteq; [apply NoDup_remove_dups|].
    intros x. apply elem_of_remove_dups.
  - destruct symbols as [|x rest]; [contradiction|]. intros _.
    assert (Hx : x ∈ remove_dups (x :: rest)) by (apply elem_of_remove_dups; left).
    destruct (remove_dups (x :: rest)); [inversion Hx|cbn; lia].
Qed.

Lemma nunique_within (symbols allowed : list string) :
  Forall (fun x => x ∈ allowed) symbols ->
  (length (remove_dups symbols) <= length allowed)%nat.
Proof.
  intros Hin. apply submseteq_length, NoDup_submseteq; [apply NoDup_remove_dups|].
  intros x Hx. rewrite elem_of_remove_dups in Hx.
  rewrite Forall_forall in Hin. apply Hin, Hx.
Qed.

Lemma transaction_of_symbol (wallet_address : string) (tx : RawTx) (row : Event) :
  transaction_of wallet_address tx = Some (inr row) ->
  asset_symbol row ∈ registry_symbols.
Proof.
  unfold transaction_of. case_bool_decide as Hin; [|discriminate].
  destruct (get_compound_v2_ctokens !! _) as [token_info|] eqn:Hreg; [|discriminate].
  destruct (py_int (tx_value tx)) as [value_raw|]; [|discriminate].
  destruct (py_int (tx_timeStamp tx)) as [seconds|]; [|discriminate].
  intros H. injection H as <-. cbn [asset_symbol].
  unfold registry_symbols. apply list_elem_of_fmap.
  exists (lower (tx_contractAddress tx), token_info). split; [reflexivity|].
  apply elem_of_map_to_list, Hreg.
Qed.

Lemma fetched_symbols (remote : Ledger) (wallet_address api_key : string)
    (rows : list Event) :
  outcome (fetch_real_transactions remote wallet_address api_key) = inr rows ->
  Forall (fun e => asset_symbol e ∈ registry_symbols) rows.
Proof.
  intros Hrows. rewrite fetch_outcome in Hrows.
  destruct (remote wallet_address api_key) as [reason|status result].
  - injection Hrows as <-. constructor.
  - case_bool_decide as Hs; [|injection Hrows as <-; constructor].
    apply collect_transactions_retained in Hrows.
    induction Hrows as [|tx row txs rows Htx _ IH]; constructor.
    + eapply transaction_of_symbol, Htx.
    + exact IH.
Qed.

(** X15. The number of distinct assets of a wallet counts the tokens of its
    fetched events: it is at least 1 when the wallet has an event, at most
    the number of its events, and never more than 6, the size of the
    registry. *)
Theorem distinct_assets_bounds (remote : Ledger) (now : Z)
    (wallet_address api_key : string) (rows : list Event) :
  outcome (fetch_real_transactions remote wallet_address api_key) = inr rows ->
  let n := distinct_assets_borrowed (calculate_features now rows) in
  0 <= n <= 6
  /\ n <= Z.of_nat (length rows)
  /\ (rows <> [] -> 1 <= n)
  /\ Forall (fun e => asset_symbol e ∈ registry_symbols) rows.
Proof.
  intros Hrows. cbv zeta. pose proof (fetched_symbols _ _ _ _ Hrows) as Hsym.
  assert (Hn : distinct_assets_borrowed (calculate_features now rows)
               = Z.of_nat (length (remove_dups (asset_symbol <$> rows))))
    by (destruct rows; reflexivity).
  rewrite Hn.
  destruct (nunique_bounds (asset_symbol <$> rows)) as [Hle Hge].
  rewrite length_fmap in Hle.
  assert (Hsix : (length (remove_dups (asset_symbol <$> rows)) <= 6)%nat).
  { change 6%nat with (length registry_symbols).
    apply nunique_within, Forall_fmap. exact Hsym. }
  split; [lia|]. split; [lia|]. split; [|exact Hsym].
  intros Hne. assert (asset_symbol <$> rows <> []) by (destruct rows; [contradiction|discriminate]).
  specialize (Hge ltac:(assumption)). lia.
Qed.

Lemma distinct_assets_bounds_witness :
  outcome (fetch_real_transactions sample_ledger wallet_a "key")
  = inr (fetched_events sample_ledger "key" wallet_a)
  /\ distinct_assets_borrowed
       (calculate_features sample_now (fetched_events sample_ledger "key" wallet_a))
     <= 6.
Proof.
  assert (H : outcome (fetch_real_transactions sample_ledger wallet_a "key")
              = inr (fetched_events sample_ledger "key" wallet_a))
    by (vm_compute; reflexivity).
  split; [exact H|].
  destruct (distinct_assets_bounds sample_ledger sample_now wallet_a "key" _ H)
    as ([_ Hsix] & _).
  exact Hsix.
Defined.

(** X16. The age of a wallet with events is counted from its earliest
    event, in whole days rounded down, and is not clamped: it is negative
    exactly when that event lies after the clock reading. *)
Theorem wallet_age_from_earliest_event (now : Z) (df : list Event) :
  df <> [] ->
  let age := wallet_age_days (calculate_features now df) in
  exists earliest,
    earliest ∈ df
    /\ (forall e, e ∈ df -> timestamp earliest <= timestamp e)
    /\ 86400 * age <= now - timestamp earliest < 86400 * (age + 1)
    /\ (age < 0 <-> now < timestamp earliest).
Proof.
  destruct df as [|first others]; [contradiction|]. intros _. cbv zeta.
  cbn [calculate_features wallet_age_days]. unfold days_between.
  set (t0 := series_min (timestamp first) (timestamp <$> others)).
  assert (Hin : t0 ∈ timestamp <$> first :: others) by apply series_min_attained.
  apply list_elem_of_fmap in Hin as (earliest & Ht0 & Hin).
  exists earliest. rewrite <- Ht0. split; [exact Hin|]. split; [|split].
  - intros e He. apply series_min_lower_bound.
    change (timestamp e ∈ timestamp <$> first :: others).
    apply list_elem_of_fmap. eauto.
  - pose proof (Z.mul_div_le (now - t0) 86400 ltac:(lia)).
    pose proof (Z.mul_succ_div_gt (now - t0) 86400 ltac:(lia)). lia.
  - split; intros H.
    + pose proof (Z.div_pos (now - t0) 86400). lia.
    + apply Z.div_lt_upper_bound; lia.
Qed.

Lemma wallet_age_from_earliest_event_witness :
  sample_events <> []
  /\ exists earliest,
       earliest ∈ sample_events
       /\ 86400 * 10 <= sample_now - timestamp earliest < 86400 * 11.
Proof.
  assert (H : sample_events <> []) by discriminate.
  split; [exact H|].
  destruct (wallet_age_from_earliest_event sample_now sample_events H)
    as (earliest & Hin & _ & Hage & _).
  exists earliest. split; [exact Hin|exact Hage].
Defined.

(** ** Scores of a batch *)

Section BatchScores.
Local Open Scope Q_scope.
Import MinMaxScaler.

Lemma data_min_attained (X : list Q) : X <> [] -> In (data_min X) X.
Proof.
  destruct X as [|a rest]; [contradiction|]. intros _. cbn [data_min].
  induction rest as [|b rest IH]; cbn [foldr]; [now left|].
  set (m := foldr Qmin a rest) in *.
  unfold Qmin, GenericMinMax.gmin.
  destruct (b ?= m).
  - right. now left.
  - right. now left.
  - destruct IH as [<-|IH]; [now left|right; right; exact IH].
Qed.

Lemma data_max_attained (X : list Q) : X <> [] -> In (data_max X) X.
Proof.
  destruct X as [|a rest]; [contradiction|]. intros _. cbn [data_max].
  induction rest as [|b rest IH]; cbn [foldr]; [now left|].
  set (m := foldr Qmax a rest) in *.
  unfold Qmax, GenericMinMax.gmax.
  destruct (b ?= m).
  - right. now left.
  - destruct IH as [<-|IH]; [now left|right; right; exact IH].
  - right. now left.
Qed.





Lemma scale_positive (X : list Q) : X <> [] -> 0 < scale_ X.
Proof.
  intros _. unfold scale_, handle_zeros_in_scale.
  destruct (Qle_bool (10 * eps) (data_range X)) eqn:Hz.
  - apply Qle_bool_iff in Hz. unfold eps in Hz.
    apply Qlt_shift_div_l; lra.
  - reflexivity.
Qed.

Lemma rescale_monotone (X : list Q) (x y : Q) :
  X <> [] -> x <= y -> rescale X x <= rescale X y.
Proof.
  intros HX Hxy. unfold rescale. pose proof (scale_positive X HX) as Hs.
  apply Qplus_le_l. apply Qmult_le_compat_r; lra.
Qed.

Lemma constant_column (X : list Q) (c : Q) :
  Forall (fun x => x == c) X -> forall x, In x X -> rescale X x == 0.
Proof.
  intros Hall x Hin. apply rescale_tied; [exact Hin|].
  assert (HX : X <> []) by (intros ->; destruct Hin).
  rewrite Forall_forall in Hall.
  rewrite (Hall (data_min X)), (Hall (data_max X)); [reflexivity| |].
  - apply list_elem_of_In, data_max_attained, HX.
  - apply list_elem_of_In, data_min_attained, HX.
Qed.


Lemma normalized_monotone (df : list FeatureRow) (column : FeatureRow -> Q)
    (r r' : FeatureRow) :
  In r df -> column r <= column r' ->
  normalized df column r <= normalized df column r'.
Proof.
  intros Hin Hle. unfold normalized. apply rescale_monotone; [|exact Hle].
  destruct df; [destruct Hin|discriminate].
Qed.

Lemma normalized_constant (df : list FeatureRow) (column : FeatureRow -> Q)
    (c : Q) (r : FeatureRow) :
  Forall (fun r => column r == c) df -> In r df -> normalized df column r == 0.
Proof.
  intros Hall Hin. unfold normalized. apply (constant_column _ c).
  - apply Forall_fmap. exact Hall.
  - apply in_map, Hin.
Qed.

Lemma scorer_floor_rows (features_df : list FeatureRow) :
  scorer features_df
  = (fun r => (wallet_id r, Qfloor (weighted_sum features_df r * 1000))) <$> features_df.
Proof.
  rewrite scorer_rows. apply list_fmap_ext. intros i r Hr.
  apply list_elem_of_lookup_2, list_elem_of_In in Hr.
  f_equal. apply score_of_row, Hr.
Qed.

End BatchScores.




Lemma inactive_scores (now : Z) (wallet_addresses : list string)
    (all_transactions : gmap string (list Event)) :
  all_inactive wallet_addresses all_transactions ->
  scorer (features_list now wallet_addresses all_transactions)
  = (fun address => (address, 50)) <$> wallet_addresses.
Proof.
  intros Hnone.
  assert (Hrows : features_list now wallet_addresses all_transactions
                  = (fun address => {| wallet_id := address; features := zero_features |})
                    <$> wallet_addresses).
  { unfold features_list. apply list_fmap_ext. intros i address Hi.
    apply list_elem_of_lookup_2 in Hi. unfold all_inactive in Hnone.
    rewrite Forall_forall in Hnone. rewrite (Hnone address Hi). reflexivity. }
  rewrite Hrows. set (features_df := _ <$> wallet_addresses).
  rewrite scorer_floor_rows. unfold features_df at 2.
  rewrite <- list_fmap_compose. apply list_fmap_ext. intros i address Hi.
  cbn [compose wallet_id]. f_equal.
  set (r := {| wallet_id := address; features := zero_features |}).
  assert (Hr : In r features_df).
  { apply list_elem_of_In, list_elem_of_fmap. exists address. split; [reflexivity|].
    eapply list_elem_of_lookup_2, Hi. }
  assert (Hconst : forall column : FeatureRow -> Q,
             (forall address, column {| wallet_id := address; features := zero_features |}
                              == column r)%Q ->
             (normalized features_df column r == 0)%Q).
  { intros column Hcol. apply (normalized_constant features_df column (column r)); [|exact Hr].
    apply Forall_fmap, Forall_forall. intros a _. apply Hcol. }
  assert (Hws : (weighted_sum features_df r * 1000 == 50)%Q).
  { unfold weighted_sum.
    rewrite !Hconst by (intros; reflexivity). reflexivity. }
  rewrite (Qfloor_comp _ _ Hws). reflexivity.
Qed.

(** X18. In a batch whose wallets all have no events each wallet gets the
    score 50, whatever else the transactions map holds. *)
Theorem inactive_batch_scores_50 (now : Z) (wallet_addresses : list string)
    (all_transactions : gmap string (list Event)) :
  all_inactive wallet_addresses all_transactions ->
  scorer (features_list now wallet_addresses all_transactions)
  = (fun address => (address, 50)) <$> wallet_addresses
  /\ Forall (fun r => features r = zero_features)
       (features_list now wallet_addresses all_transactions).
Proof.
  intros Hnone. split; [apply inactive_scores, Hnone|].
  unfold features_list. apply Forall_fmap, Forall_forall. intros address Hin.
  cbn [compose features]. unfold all_inactive in Hnone.
  rewrite Forall_forall in Hnone. rewrite (Hnone address Hin). reflexivity.
Qed.

Lemma inactive_batch_scores_50_witness :
  all_inactive [wallet_b; wallet_d] sample_transactions
  /\ scorer (features_list sample_now [wallet_b; wallet_d] sample_transactions)
     = [(wallet_b, 50); (wallet_d, 50)].
Proof.
  assert (H : all_inactive [wallet_b; wallet_d] sample_transactions)
    by (repeat constructor).
  split; [exact H|].
  destruct (inactive_batch_scores_50 sample_now [wallet_b; wallet_d] _ H) as [Hscores _].
  exact Hscores.
Defined.

(** X19. Scores are monotone in the features: within one batch, a wallet
    whose proxy, number of assets and liquidation features are no smaller
    than another's and whose age is no greater scores at least as high. *)
Theorem score_monotone_in_features (features_df : list FeatureRow)
    (i j : nat) (r r' : FeatureRow) (record record' : string * Z) :
  features_df !! i = Some r ->
  features_df !! j = Some r' ->
  at_most_as_risky r r' ->
  scorer features_df !! i = Some record ->
  scorer features_df !! j = Some record' ->
  record.2 <= record'.2.
Proof.
  intros Hi Hj (Hliq & Hproxy & Htliq & Hassets & Hage).
  rewrite scorer_floor_rows, !list_lookup_fmap, Hi, Hj.
  intros Hrec Hrec'.
  assert (Hs : record.2 = Qfloor (weighted_sum features_df r * 1000))
    by (apply (f_equal (fmap snd)) in Hrec; injection Hrec as <-; reflexivity).
  assert (Hs' : record'.2 = Qfloor (weighted_sum features_df r' * 1000))
    by (apply (f_equal (fmap snd)) in Hrec'; injection Hrec' as <-; reflexivity).
  rewrite Hs, Hs'. clear Hrec Hrec' Hs Hs'.
  assert (Hr : In r features_df) by (eapply list_elem_of_In, list_elem_of_lookup_2, Hi).
  apply Qfloor_resp_le. unfold weighted_sum.
  pose proof (normalized_monotone features_df column_liquidation_count r r' Hr Hliq).
  pose proof (normalized_monotone features_df column_health_factor_proxy r r' Hr Hproxy).
  pose proof (normalized_monotone features_df column_total_liquidated_usd r r' Hr Htliq).
  pose proof (normalized_monotone features_df column_distinct_assets_borrowed r r' Hr
                Hassets).
  assert (Hr' : In r' features_df) by (eapply list_elem_of_In, list_elem_of_lookup_2, Hj).
  pose proof (normalized_monotone features_df column_wallet_age_days r' r Hr' Hage).
  lra.
Qed.

Lemma score_monotone_in_features_witness :
  at_most_as_risky
    {| wallet_id := wallet_c; features := calculate_features sample_now larger_events |}
    {| wallet_id := wallet_d; features := calculate_features sample_now richer_events |}
  /\ scorer ordered_frame = [(wallet_c, 0); (wallet_d, 450)]
  /\ 0 <= 450.
Proof.
  assert (H : at_most_as_risky
    {| wallet_id := wallet_c; features := calculate_features sample_now larger_events |}
    {| wallet_id := wallet_d; features := calculate_features sample_now richer_events |}).
  { unfold at_most_as_risky. repeat split; vm_compute; discriminate. }
  assert (Hscores : scorer ordered_frame = [(wallet_c, 0); (wallet_d, 450)])
    by (vm_compute; reflexivity).
  split; [exact H|]. split; [exact Hscores|].
  apply (score_monotone_in_features ordered_frame 0 1 _ _ (wallet_c, 0) (wallet_d, 450)
           eq_refl eq_refl H).
  - rewrite Hscores. reflexivity.
  - rewrite Hscores. reflexivity.
Defined.



(** X21. When the ledger is unreachable or knows nothing of the wallets, so
    that every fetch comes back empty, a run with a key still returns one
    record per wallet, each with the score 50. *)
Theorem run_without_events_scores_50 (remote : Ledger) (now : Z)
    (wallet_addresses : list string) (api_key : string) :
  api_key <> "" ->
  Forall (fun address =>
            outcome (fetch_real_transactions remote address api_key) = inr [])
    wallet_addresses ->
  outcome (generate_risk_scores remote now wallet_addresses (Some api_key))
  = inr ((fun address => (address, 50)) <$> wallet_addresses).
Proof.
  intros Hkey Hnone.
  assert (Hok : Forall (fetch_succeeds remote api_key) wallet_addresses).
  { eapply Forall_impl; [exact Hnone|]. intros address H. exists []. exact H. }
  destruct (fetch_all_success remote api_key wallet_addresses ∅ Hok)
    as (m & Hm & Hlookup & _ & _).
  rewrite (generate_with_key _ _ _ _ Hkey), Hm. f_equal.
  apply inactive_scores. unfold all_inactive. apply Forall_forall.
  intros address Hin. rewrite Hlookup, decide_True by exact Hin.
  rewrite Forall_forall in Hnone.
  rewrite (fetched_events_ok _ _ _ _ (Hnone address Hin)). reflexivity.
Qed.

Lemma run_without_events_scores_50_witness :
  "key" <> ""
  /\ outcome (generate_risk_scores sample_ledger sample_now
                [wallet_b; wallet_c; wallet_d] (Some "key"))
     = inr [(wallet_b, 50); (wallet_c, 50); (wallet_d, 50)].
Proof.
  assert (Hkey : "key" <> "") by discriminate.
  split; [exact Hkey|].
  apply (run_without_events_scores_50 sample_ledger sample_now
           [wallet_b; wallet_c; wallet_d] "key" Hkey).
  repeat constructor.
Defined.
